(** * Streak scanner and streak aggregator of [data_manipulator.py]

    A shallow embedding of [DataManipulator.calculate_streaks_and_details]
    and of the table-building part of
    [DataManipulator.create_combined_frequencies_dataframe], with the
    properties of the streak engine stated and proved over them.

    Numbers.  The only non-integer literal of the two functions is [0.5];
    every length is a finite sum of [1], [0.5] and [0], all dyadic and exact
    in binary64.  A Python number [x] of these functions is represented by the
    integer [2 * x] (type [halves]): [1] is [2], [0.5] is [1], the test
    [current_streak > 1] is [2 <? current_streak]. *)

From Stdlib Require Import ZArith List String Bool Lia.
From Stdlib Require Import Sorting.Sorted Sorting.Permutation.
Import ListNotations.
Open Scope Z_scope.

(** ** Python values and exceptions *)

Definition halves := Z.

Definition one : halves := 2.
Definition half : halves := 1.

Inductive exn : Type :=
| TypeError                 (* [None + 1] *)
| IndexError                (* [.values[0]] on an empty selection *)
| ZeroDivisionError         (* [np.arange] with a zero step *)
| ValueError_arange_length. (* [np.arange]: "cannot compute length" *)

Inductive result (A : Type) : Type :=
| Ok (a : A)
| Raise (e : exn).
Arguments Ok {A} a.
Arguments Raise {A} e.

Definition bind {A B} (m : result A) (k : A -> result B) : result B :=
  match m with
  | Ok a => k a
  | Raise e => Raise e
  end.

Notation "x <- m ;; k" := (bind m (fun x => k))
  (at level 61, m at next level, right associativity).

Fixpoint mapM {A B} (f : A -> result B) (l : list A) : result (list B) :=
  match l with
  | [] => Ok []
  | a :: l' => b <- f a ;; bs <- mapM f l' ;; Ok (b :: bs)
  end.

(** [range(lo, hi)] *)
Definition range (lo hi : Z) : list Z :=
  map (fun i => lo + Z.of_nat i) (seq 0 (Z.to_nat (hi - lo))).

(** ** The record table *)

(** One row of the data frame, with the columns the scanner reads.  [Winner]
    is a name, the literal ["Draw"], or missing ([None]: the cell is NaN). *)
Record row : Type := mkRow {
  ID : Z;
  Winner : option string;
  Opponent_ELO : Z;
  ELO_Difference_In_Terms_of_Player : Z
}.

Definition dataframe := list row.

(** The dictionaries collected in [streak_details]. *)
Record detail : Type := mkDetail {
  d_ID : Z;
  d_Opponent_ELO : Z;
  d_ELO_Difference : Z
}.

(** [winner == name]; a missing winner equals no string. *)
Definition winner_is (w : option string) (name : string) : bool :=
  match w with
  | Some s => String.eqb s name
  | None => false
  end.

(** The literal dictionary built from the current row. *)
Definition detail_of_row (r : row) : detail :=
  mkDetail (ID r) (Opponent_ELO r) (ELO_Difference_In_Terms_of_Player r).

(** [df.loc[df['ID'] == id, col].values[0]] for both columns: the first row
    of the whole table whose [ID] is [id]; [IndexError] when there is none. *)
Definition lookup_detail (df : dataframe) (id : Z) : result detail :=
  match find (fun r => ID r =? id) df with
  | Some r => Ok (mkDetail id (Opponent_ELO r)
                           (ELO_Difference_In_Terms_of_Player r))
  | None => Raise IndexError
  end.

(** ** Streak scanner *)

(** The local variables of [calculate_streaks_and_details]. *)
Record state : Type := mkState {
  streaks : list halves;
  details : list detail;
  current_streak : halves;
  streak_start_id : option Z;
  streak_details : list detail;
  last_id : option Z;
  pending_draw : halves
}.

Definition initial_state : state :=
  mkState [] [] 0 None [] None 0.

(** [(last_id is None) or (current_id == last_id + 1)] *)
Definition is_sequential (st : state) (current_id : Z) : bool :=
  match last_id st with
  | None => true
  | Some l => current_id =? l + 1
  end.

Definition is_None {A} (o : option A) : bool :=
  match o with
  | None => true
  | Some _ => false
  end.

(** [if current_streak > 1: streaks.append(current_streak);
     details.extend(streak_details)] *)
Definition emit (st : state) : state :=
  if 2 <? current_streak st then
    mkState (streaks st ++ [current_streak st])
            (details st ++ streak_details st)
            (current_streak st) (streak_start_id st) (streak_details st)
            (last_id st) (pending_draw st)
  else st.

(** The win branch is a continuation when a streak is open and the row is
    sequential. *)
Definition continues (st : state) (r : row) : bool :=
  negb (is_None (streak_start_id st) || negb (is_sequential st (ID r))).

Section Scanner.

Variable df : dataframe.
Variable player_name : string.

(** The body of the loop, up to and including [last_id = current_id]. *)
Definition step (st : state) (r : row) : result state :=
  let current_id := ID r in
  let winner := Winner r in
  st' <-
    (if winner_is winner player_name then
       if continues st r then
         match last_id st with
         | None => Raise TypeError
         | Some l =>
             ds <- mapM (lookup_detail df) (range (l + 1) (current_id + 1)) ;;
             Ok (mkState (streaks st) (details st)
                         (current_streak st + (one + pending_draw st))
                         (streak_start_id st)
                         (streak_details st ++ ds)
                         (last_id st) 0)
         end
       else
         let st1 := emit st in
         Ok (mkState (streaks st1) (details st1)
                     one (Some current_id) [detail_of_row r]
                     (last_id st) 0)
     else if winner_is winner "Draw" && is_sequential st current_id then
       match streak_start_id st with
       | Some _ =>
           Ok (mkState (streaks st) (details st)
                       (current_streak st) (streak_start_id st)
                       (streak_details st ++ [detail_of_row r])
                       (last_id st) half)
       | None =>
           Ok (mkState (streaks st) (details st)
                       (current_streak st) (streak_start_id st)
                       (streak_details st)
                       (last_id st) 0)
       end
     else
       let st1 := emit st in
       Ok (mkState (streaks st1) (details st1) 0 None [] (last_id st) 0)) ;;
  Ok (mkState (streaks st') (details st') (current_streak st')
              (streak_start_id st') (streak_details st')
              (Some current_id) (pending_draw st')).

(** [for idx, row in df.iterrows(): ...] from a given state. *)
Fixpoint scan (st : state) (rows : list row) : result state :=
  match rows with
  | [] => Ok st
  | r :: rows' => st' <- step st r ;; scan st' rows'
  end.

Definition calculate_streaks_and_details
  : result (list halves * list detail) :=
  st <- scan initial_state df ;;
  let st' := emit st in
  Ok (streaks st', details st').

(** What one transition appended to the two output lists: the streak just
    emitted, with its own detail entries, if there is one. *)
Definition newly_emitted (st st' : state) : list (halves * list detail) :=
  if (List.length (streaks st) <? List.length (streaks st'))%nat then
    [(last (streaks st') 0, skipn (List.length (details st)) (details st'))]
  else [].

(** The emitted streaks in emission order, each with its detail entries. *)
Fixpoint emissions (st : state) (rows : list row)
  : result (list (halves * list detail)) :=
  match rows with
  | [] => Ok (newly_emitted st (emit st))
  | r :: rows' =>
      st' <- step st r ;;
      es <- emissions st' rows' ;;
      Ok (newly_emitted st st' ++ es)
  end.

End Scanner.

Definition ids (ds : list detail) : list Z := map d_ID ds.

(** Rows by outcome for the tracked player. *)
Definition is_win (player_name : string) (r : row) : Prop :=
  winner_is (Winner r) player_name = true.
Definition is_draw (player_name : string) (r : row) : Prop :=
  winner_is (Winner r) player_name = false /\
  winner_is (Winner r) "Draw" = true.
Definition is_loss (player_name : string) (r : row) : Prop :=
  winner_is (Winner r) player_name = false /\
  winner_is (Winner r) "Draw" = false.

(** ** Streak aggregator *)

(** A float that may be NaN. *)
Inductive pyfloat : Type :=
| Fin (h : halves)
| NaN.

Definition fadd (a b : pyfloat) : pyfloat :=
  match a, b with
  | Fin x, Fin y => Fin (x + y)
  | _, _ => NaN
  end.

(** [data['Streak'].max()]: NaN on an empty column. *)
Definition series_max (data : list halves) : pyfloat :=
  match data with
  | [] => NaN
  | x :: xs => Fin (fold_left Z.max xs x)
  end.

(** [ceil(a / b)] *)
Definition ceil_div (a b : Z) : Z := - ((- a) / b).

(** [np.arange(start, stop, step)]: [ceil((stop - start) / step)] values
    [start + i * step]; a NaN bound makes the length uncomputable. *)
Definition np_arange (start stop step : pyfloat) : result (list halves) :=
  match start, stop, step with
  | Fin a, Fin b, Fin s =>
      if s =? 0 then Raise ZeroDivisionError
      else Ok (map (fun i => a + Z.of_nat i * s)
                   (seq 0 (Z.to_nat (ceil_div (b - a) s))))
  | _, _, _ => Raise ValueError_arange_length
  end.

(** [np.sum(data['Streak'] == xi)] *)
Definition count_eq (data : list halves) (xi : halves) : nat :=
  List.length (filter (fun x => x =? xi) data).

(** The [Xi]/[Fi] table of [create_combined_frequencies_dataframe], from the
    [Streak] column of the file it reads. *)
Definition create_combined_frequencies_dataframe (data : list halves)
  : result (list (halves * nat)) :=
  let max_value := series_max data in
  xi_values <- np_arange (Fin (2 * one)) (fadd max_value (Fin half)) (Fin half) ;;
  Ok (map (fun xi => (xi, count_eq data xi)) xi_values).

(** ** Vocabulary of the statements *)

(** A state in which an open streak has a predecessor row; every state the
    loop reaches is one. *)
Definition wf (st : state) : Prop :=
  streak_start_id st <> None -> last_id st <> None.

(** The branches of the loop body as a relation: opening a streak (after
    closing the previous one), continuing it with a win, a draw inside a
    streak, a draw outside any streak, and closing. *)
Inductive transition (df : dataframe) (p : string) (st : state) (r : row)
  : state -> Prop :=
| T_open :
    is_win p r -> continues st r = false ->
    transition df p st r
      (mkState (streaks (emit st)) (details (emit st))
               one (Some (ID r)) [detail_of_row r] (Some (ID r)) 0)
| T_continue (s l : Z) (d : detail) :
    is_win p r -> continues st r = true ->
    streak_start_id st = Some s -> last_id st = Some l -> ID r = l + 1 ->
    lookup_detail df (ID r) = Ok d -> d_ID d = ID r ->
    transition df p st r
      (mkState (streaks st) (details st)
               (current_streak st + (one + pending_draw st))
               (Some s) (streak_details st ++ [d]) (Some (ID r)) 0)
| T_draw_in (s : Z) :
    is_draw p r -> is_sequential st (ID r) = true ->
    streak_start_id st = Some s ->
    transition df p st r
      (mkState (streaks st) (details st) (current_streak st)
               (Some s) (streak_details st ++ [detail_of_row r])
               (Some (ID r)) half)
| T_draw_out :
    is_draw p r -> is_sequential st (ID r) = true ->
    streak_start_id st = None ->
    transition df p st r
      (mkState (streaks st) (details st) (current_streak st)
               None (streak_details st) (Some (ID r)) 0)
| T_close :
    winner_is (Winner r) p = false ->
    winner_is (Winner r) "Draw" && is_sequential st (ID r) = false ->
    transition df p st r
      (mkState (streaks (emit st)) (details (emit st))
               0 None [] (Some (ID r)) 0).

(** Every length emitted so far exceeds 1. *)
Definition lengths_inv (st : state) : Prop :=
  Forall (fun x => one < x) (streaks st).

(** The pending draw weight is 0 or 0.5. *)
Definition pending_inv (st : state) : Prop :=
  pending_draw st = 0 \/ pending_draw st = half.

(** An open streak's entries are the ids from its start to the last row. *)
Definition open_inv (st : state) : Prop :=
  match streak_start_id st with
  | Some s => exists l, last_id st = Some l /\ s <= l /\
                        ids (streak_details st) = range s (l + 1)
  | None => current_streak st = 0
  end.

(** The ids of each emitted streak's detail entries. *)
Definition group_ids (es : list (halves * list detail)) : list (list Z) :=
  map (fun e => ids (snd e)) es.

(** Every id of [g] is below every id of [h]. *)
Definition before (g h : list Z) : Prop :=
  forall x y, In x g -> In y h -> x < y.

(** [x] comes after the last visited row. *)
Definition after (st : state) (x : Z) : Prop :=
  match last_id st with
  | Some l => l < x
  | None => True
  end.

(** A lower bound on every id that can still be emitted from [st]. *)
Definition low (st : state) (x : Z) : Prop :=
  match streak_start_id st with
  | Some s => s <= x
  | None => after st x
  end.

(** The outcome of a row for the tracked player, in the order in which the
    loop body tests the [Winner] column. *)
Inductive outcome : Type := Win | Draw | Loss.

Definition outcome_of (p : string) (r : row) : outcome :=
  if winner_is (Winner r) p then Win
  else if winner_is (Winner r) "Draw" then Draw
  else Loss.

(** The table as the list of its [(id, outcome)] pairs. *)
Definition records (p : string) (df : dataframe) : list (Z * outcome) :=
  map (fun r => (ID r, outcome_of p r)) df.

(** The statement of C4 that some reachable win-continuation step has, in
    its range, an id other than the id of the current row. *)
Definition skipped_id_in_continuation : Prop :=
  exists (df : dataframe) (p : string) (pre post : list row) (r : row)
         (st : state) (l id : Z),
    df = pre ++ r :: post /\
    scan df p initial_state pre = Ok st /\
    is_win p r /\ continues st r = true /\ last_id st = Some l /\
    In id (range (l + 1) (ID r + 1)) /\ id <> ID r.

(** ** Concrete tables *)

(** Rows and tables for the runs below. *)
Definition win_row (p : string) (i : Z) : row := mkRow i (Some p) 2700 50.
Definition draw_row (i : Z) : row := mkRow i (Some "Draw"%string) 2750 0.
Definition loss_row (i : Z) : row :=
  mkRow i (Some "Opponent"%string) 2800 (-50).

Definition scenario_B : dataframe :=
  [win_row "Hikaru" 1; draw_row 2; win_row "Hikaru" 3].
Definition scenario_C : dataframe :=
  [win_row "Hikaru" 1; draw_row 2; loss_row 3].
Definition scenario_D : dataframe :=
  [win_row "Hikaru" 1; win_row "Hikaru" 3].
Definition trailing_draw : dataframe :=
  [win_row "Hikaru" 1; win_row "Hikaru" 2; draw_row 3; loss_row 4].

Definition two_streaks : dataframe :=
  [win_row "Hikaru" 1; win_row "Hikaru" 2; loss_row 3;
   win_row "Hikaru" 4; draw_row 5; win_row "Hikaru" 6].

Definition double_draw : dataframe :=
  [win_row "Hikaru" 1; draw_row 2; draw_row 3; win_row "Hikaru" 4].

(** A single win dropped by a loss, then a streak of two wins. *)
Definition short_run_then_streak : dataframe :=
  [win_row "Hikaru" 1; loss_row 2; win_row "Hikaru" 3; win_row "Hikaru" 4].

(** A table sorted ascending by id in which the id 2 occurs twice. *)
Definition repeated_id : dataframe :=
  [win_row "Hikaru" 1; win_row "Hikaru" 2; win_row "Hikaru" 2;
   win_row "Hikaru" 3].

(** ** Further vocabulary: runs, wins and segments *)

(** The shape of the run in progress: an open run holds the contiguous ids
    from its first win to the last row, its length is 1 or at least 2 (then
    with at least two rows), and length plus pending weight never exceeds
    the number of its entries; outside a run the length is 0. *)
Definition run_inv (st : state) : Prop :=
  (pending_draw st = 0 \/ pending_draw st = half) /\
  match streak_start_id st with
  | Some s =>
      exists l, last_id st = Some l /\ s <= l /\
        ids (streak_details st) = range s (l + 1) /\
        (current_streak st = one \/ (2 * one <= current_streak st /\ s < l)) /\
        current_streak st + pending_draw st
        <= one * Z.of_nat (List.length (streak_details st))
  | None => current_streak st = 0
  end.

(** What an emitted streak looks like: a length of at least 2 and no more
    than the number of entries, over a contiguous range of at least two
    ids. *)
Definition well_formed_streak (e : halves * list detail) : Prop :=
  2 * one <= fst e /\
  fst e <= one * Z.of_nat (List.length (snd e)) /\
  exists s l, s < l /\ ids (snd e) = range s (l + 1).

(** The rows the tracked player won. *)
Definition wins (p : string) (rows : list row) : list row :=
  filter (fun r => winner_is (Winner r) p) rows.

(** The scanner's two results for the rows [rows] of the table [df]. *)
Definition run_on (df : dataframe) (p : string) (rows : list row)
  : result (list halves * list detail) :=
  st <- scan df p initial_state rows ;;
  let st' := emit st in
  Ok (streaks st', details st').

(** Two results of the scanner, one after the other. *)
Definition append_outputs (a b : result (list halves * list detail))
  : result (list halves * list detail) :=
  x <- a ;; y <- b ;; Ok (fst x ++ fst y, snd x ++ snd y).

(** A state between runs. *)
Definition closed_state (s : list halves) (d : list detail) (l : option Z)
  : state :=
  mkState s d 0 None [] l 0.

(** A detail entry that is the data of a row of [df] the player did not
    lose. *)
Definition own_entry (df : dataframe) (p : string) (d : detail) : Prop :=
  exists r, In r df /\ d = detail_of_row r /\ outcome_of p r <> Loss.

(** [st] with [s] and [d] put in front of the two output lists. *)
Definition prefix_outputs (s : list halves) (d : list detail) (st : state)
  : state :=
  mkState (s ++ streaks st) (d ++ details st) (current_streak st)
          (streak_start_id st) (streak_details st) (last_id st)
          (pending_draw st).

(** The two results returned from the state the loop ends in. *)
Definition outputs_of (r : result state) : result (list halves * list detail) :=
  st <- r ;;
  let st' := emit st in
  Ok (streaks st', details st').

(** ** Readers of the frequency table ([data_analyzer.py]) *)

(** [np.repeat(X, F)]: each [Xi] repeated [Fi] times, in table order. *)
Definition np_repeat (table : list (halves * nat)) : list halves :=
  flat_map (fun xf => repeat (fst xf) (snd xf)) table.

(** [Series.idxmax()] on the default index: the position of the first
    occurrence of the largest value; [None] stands for the [ValueError]
    raised on an empty series. *)
Fixpoint argmax_from (l : list Z) (best : Z) (best_i i : nat) : nat :=
  match l with
  | [] => best_i
  | y :: l' =>
      if best <? y then argmax_from l' y i (S i)
      else argmax_from l' best best_i (S i)
  end.

Definition idxmax (l : list Z) : option nat :=
  match l with
  | [] => None
  | x :: l' => Some (argmax_from l' x 0 1)
  end.

(** [mode = X[F.idxmax()]] *)
Definition mode (table : list (halves * nat)) : option halves :=
  match idxmax (map (fun xf => Z.of_nat (snd xf)) table) with
  | Some i => nth_error (map fst table) i
  | None => None
  end.

(** [highest_streak = np.max(X)] *)
Definition highest_streak (table : list (halves * nat)) : pyfloat :=
  series_max (map fst table).

(** [freq_of_highest_streak = F[X.idxmax()]] *)
Definition freq_of_highest_streak (table : list (halves * nat)) : option nat :=
  match idxmax (map fst table) with
  | Some i => nth_error (map snd table) i
  | None => None
  end.

(** ** The per-player pipeline ([process_files]) *)

(** [sort_values(by='Streak', ascending=True)] on the one-column frame of
    streak lengths, written without its index: the lengths in ascending
    order. *)
Fixpoint insert_ascending (x : halves) (l : list halves) : list halves :=
  match l with
  | [] => [x]
  | y :: l' => if x <=? y then x :: l else y :: insert_ascending x l'
  end.

Fixpoint sort_values_ascending (l : list halves) : list halves :=
  match l with
  | [] => []
  | x :: l' => insert_ascending x (sort_values_ascending l')
  end.

(** The files [process_files] writes for one player; the frequency file is
    absent when the aggregator raised before writing it. *)
Record player_files : Type := mkFiles {
  streaks_unordered : list halves;
  streak_details_file : list detail;
  streaks_ordered : list halves;
  frequencies : option (list (halves * nat))
}.

(** What stops [process_files]: a player key missing from [winner_names], or
    an exception of the scanner or the aggregator. *)
Inductive stop : Type :=
| KeyError (player_key : string)
| Raised (e : exn).

Section ProcessFiles.

(** [df.sort_values(by='ID').reset_index(drop=True)]; pandas leaves the
    order of rows with equal ids open, so the function is a parameter. *)
Variable sort_values_by_ID : dataframe -> dataframe.

(** The dictionary [self.winner_names]. *)
Variable winner_names : string -> option string.

(** The loop of [process_files] over the players' filtered tables, in the
    order of the dictionary: the files written, and what stopped the loop if
    it did not reach the end. *)
Fixpoint process_files (inputs : list (string * dataframe))
  : list (string * player_files) * option stop :=
  match inputs with
  | [] => ([], None)
  | (player_key, csv) :: rest =>
      let df := sort_values_by_ID csv in
      match winner_names player_key with
      | None => ([], Some (KeyError player_key))
      | Some player_name_in_winner_column =>
          match calculate_streaks_and_details df player_name_in_winner_column
          with
          | Raise e => ([], Some (Raised e))
          | Ok (streaks, details) =>
              let ordered := sort_values_ascending streaks in
              match create_combined_frequencies_dataframe ordered with
              | Raise e =>
                  ([(player_key, mkFiles streaks details ordered None)],
                   Some (Raised e))
              | Ok table =>
                  let (written, stopped) := process_files rest in
                  ((player_key,
                    mkFiles streaks details ordered (Some table)) :: written,
                   stopped)
              end
          end
      end
  end.

End ProcessFiles.

(** One way to sort a table by id, for the runs below: rows inserted one by
    one, each before the first row with a larger or equal id. *)
Fixpoint insert_by_ID (r : row) (df : dataframe) : dataframe :=
  match df with
  | [] => [r]
  | r' :: df' => if ID r <=? ID r' then r :: df else r' :: insert_by_ID r df'
  end.

Fixpoint insertion_sort_by_ID (df : dataframe) : dataframe :=
  match df with
  | [] => []
  | r :: df' => insert_by_ID r (insertion_sort_by_ID df')
  end.

Definition winner_names_app (player_key : string) : option string :=
  if String.eqb player_key "MagnusCarlsen" then Some "MagnusCarlsen"%string
  else if String.eqb player_key "HikaruNakamura" then Some "Hikaru"%string
  else if String.eqb player_key "FabianoCaruana"
       then Some "FabianoCaruana"%string
  else None.

(** Two states that agree on everything but the ratings kept in their detail
    entries. *)
Definition same_run (st st' : state) : Prop :=
  streaks st = streaks st' /\
  ids (details st) = ids (details st') /\
  current_streak st = current_streak st' /\
  streak_start_id st = streak_start_id st' /\
  ids (streak_details st) = ids (streak_details st') /\
  last_id st = last_id st' /\
  pending_draw st = pending_draw st'.

(** * Proofs *)

(** ** Basic facts: ranges and look-ups *)

Lemma range_single (l : Z) : range l (l + 1) = [l].
Proof.
  unfold range. replace (l + 1 - l) with 1 by lia.
  simpl. f_equal. lia.
Qed.

Lemma range_snoc (s l : Z) :
  s <= l -> range s l ++ [l] = range s (l + 1).
Proof.
  intros Hsl. unfold range.
  replace (Z.to_nat (l + 1 - s)) with (Z.to_nat (l - s) + 1)%nat by lia.
  rewrite seq_app, map_app. simpl. do 2 f_equal. lia.
Qed.

Lemma in_range (lo hi x : Z) : In x (range lo hi) <-> lo <= x < hi.
Proof.
  unfold range. rewrite in_map_iff. split.
  - intros (i & <- & Hi). apply in_seq in Hi. lia.
  - intros Hx. exists (Z.to_nat (x - lo)). split; [lia|].
    apply in_seq. lia.
Qed.

Lemma seq_map_increasing (lo : Z) (n k : nat) :
  StronglySorted Z.lt (map (fun i => lo + Z.of_nat i) (seq k n)).
Proof.
  revert k. induction n as [|n IH]; intros k; simpl; constructor.
  - apply IH.
  - apply Forall_forall. intros x Hx.
    apply in_map_iff in Hx. destruct Hx as (i & <- & Hi).
    apply in_seq in Hi. lia.
Qed.

Lemma range_increasing (lo hi : Z) : StronglySorted Z.lt (range lo hi).
Proof. apply seq_map_increasing. Qed.

Lemma lookup_detail_found (df : dataframe) (r : row) :
  In r df ->
  exists r0, In r0 df /\ ID r0 = ID r /\
    find (fun x => ID x =? ID r) df = Some r0 /\
    lookup_detail df (ID r)
    = Ok (mkDetail (ID r) (Opponent_ELO r0)
                   (ELO_Difference_In_Terms_of_Player r0)).
Proof.
  intros Hin. unfold lookup_detail.
  destruct (find (fun x => ID x =? ID r) df) as [r0|] eqn:Hf.
  - exists r0. apply find_some in Hf as Hs. destruct Hs as [Hin0 Heq].
    apply Z.eqb_eq in Heq. auto.
  - exfalso. apply (find_none _ _ Hf) in Hin.
    rewrite Z.eqb_refl in Hin. discriminate.
Qed.

(** ** The five transitions of the loop body *)

Lemma continues_true (st : state) (r : row) :
  continues st r = true ->
  exists s, streak_start_id st = Some s /\ is_sequential st (ID r) = true.
Proof.
  unfold continues. destruct (streak_start_id st) as [s|]; simpl.
  - destruct (is_sequential st (ID r)); [eauto | discriminate].
  - discriminate.
Qed.

Lemma step_transition (df : dataframe) (p : string) (st : state) (r : row) :
  wf st -> In r df ->
  exists st', step df p st r = Ok st' /\ transition df p st r st'.
Proof.
  intros Hwf Hin. unfold step.
  destruct (winner_is (Winner r) p) eqn:Hw.
  - destruct (continues st r) eqn:Hc.
    + destruct (continues_true _ _ Hc) as (s & Hs & Hseq).
      unfold is_sequential in Hseq.
      destruct (last_id st) as [l|] eqn:Hl.
      * apply Z.eqb_eq in Hseq.
        replace (ID r + 1) with (l + 1 + 1) by lia.
        rewrite range_single. simpl.
        destruct (lookup_detail_found df r Hin) as (r0 & _ & _ & _ & Hd).
        rewrite <- Hseq, Hd. simpl. eexists. split; [reflexivity|].
        rewrite Hs.
        eapply T_continue; eauto.
      * exfalso. apply Hwf; [rewrite Hs; discriminate | exact Hl].
    + simpl. eexists. split; [reflexivity|]. now apply T_open.
  - destruct (winner_is (Winner r) "Draw" && is_sequential st (ID r)) eqn:Hd.
    + apply andb_true_iff in Hd. destruct Hd as [Hd Hseq].
      destruct (streak_start_id st) as [s|] eqn:Hs; simpl;
        eexists; (split; [reflexivity|]).
      * apply T_draw_in; [split| |]; auto.
      * apply T_draw_out; [split| |]; auto.
    + simpl. eexists. split; [reflexivity|]. now apply T_close.
Qed.

Lemma transition_last_id df p st r st' :
  transition df p st r st' -> last_id st' = Some (ID r).
Proof. destruct 1; reflexivity. Qed.

Lemma transition_wf df p st r st' : transition df p st r st' -> wf st'.
Proof.
  intros H _. rewrite (transition_last_id _ _ _ _ _ H). discriminate.
Qed.

Lemma wf_initial : wf initial_state.
Proof. intros H. now contradiction H. Qed.

(** The loop never raises, and any property kept by the five transitions
    holds of the state it ends in. *)
Lemma scan_invariant (df : dataframe) (p : string) (P : state -> Prop) :
  (forall st r st', wf st -> P st -> transition df p st r st' -> P st') ->
  forall rows st, incl rows df -> wf st -> P st ->
    exists st', scan df p st rows = Ok st' /\ wf st' /\ P st'.
Proof.
  intros Hstep. induction rows as [|r rows IH]; intros st Hincl Hwf HP.
  - exists st. simpl. auto.
  - destruct (step_transition df p st r Hwf) as (st1 & Hs & Ht).
    { apply Hincl. now left. }
    simpl. rewrite Hs. simpl. apply IH.
    + intros x Hx. apply Hincl. now right.
    + eapply transition_wf; eauto.
    + eapply Hstep; eauto.
Qed.

Lemma scan_app (df : dataframe) (p : string) (rows1 rows2 : list row) st :
  scan df p st (rows1 ++ rows2)
  = (st' <- scan df p st rows1 ;; scan df p st' rows2).
Proof.
  revert st. induction rows1 as [|r rows1 IH]; intros st; simpl.
  - reflexivity.
  - destruct (step df p st r); simpl; auto.
Qed.

(** ** What [emit] and one transition append *)

Lemma emit_streaks (st : state) :
  streaks (emit st)
  = streaks st ++ (if 2 <? current_streak st then [current_streak st] else []).
Proof.
  unfold emit. destruct (2 <? current_streak st); simpl; auto using app_nil_r.
Qed.

Lemma emit_details (st : state) :
  details (emit st)
  = details st ++ (if 2 <? current_streak st then streak_details st else []).
Proof.
  unfold emit. destruct (2 <? current_streak st); simpl; auto using app_nil_r.
Qed.

Lemma emit_discards (st : state) : current_streak st <= 2 -> emit st = st.
Proof.
  intros H. unfold emit.
  destruct (2 <? current_streak st) eqn:E; [apply Z.ltb_lt in E; lia | auto].
Qed.

Lemma newly_emitted_none (st st' : state) :
  streaks st' = streaks st -> newly_emitted st st' = [].
Proof.
  intros E. unfold newly_emitted. rewrite E, Nat.ltb_irrefl. reflexivity.
Qed.

Lemma newly_emitted_closing (st st' : state) :
  streaks st' = streaks (emit st) -> details st' = details (emit st) ->
  newly_emitted st st'
  = if 2 <? current_streak st then [(current_streak st, streak_details st)]
    else [].
Proof.
  intros Es Ed. unfold newly_emitted.
  rewrite Es, Ed, emit_streaks, emit_details.
  destruct (2 <? current_streak st).
  - rewrite length_app. simpl.
    replace (List.length (streaks st) <? List.length (streaks st) + 1)%nat
      with true by (symmetry; apply Nat.ltb_lt; lia).
    rewrite last_last, skipn_app, skipn_all, Nat.sub_diag. reflexivity.
  - rewrite !app_nil_r, Nat.ltb_irrefl. reflexivity.
Qed.

(** The two output lists are the emitted streaks, flattened. *)
Lemma newly_emitted_output (st st' : state) :
  (streaks st' = streaks st /\ details st' = details st) \/
  (streaks st' = streaks (emit st) /\ details st' = details (emit st)) ->
  streaks st' = streaks st ++ map fst (newly_emitted st st') /\
  details st' = details st ++ List.concat (map snd (newly_emitted st st')).
Proof.
  intros [[Es Ed]|[Es Ed]].
  - rewrite newly_emitted_none by assumption. simpl.
    rewrite !app_nil_r. auto.
  - rewrite newly_emitted_closing by assumption.
    rewrite Es, Ed, emit_streaks, emit_details.
    destruct (2 <? current_streak st); simpl; rewrite ?app_nil_r; auto.
Qed.

Lemma transition_output df p st r st' :
  transition df p st r st' ->
  (streaks st' = streaks st /\ details st' = details st) \/
  (streaks st' = streaks (emit st) /\ details st' = details (emit st)).
Proof. destruct 1; simpl; auto. Qed.

Lemma emissions_output (df : dataframe) (p : string) :
  forall rows st, incl rows df -> wf st ->
  exists st' es,
    scan df p st rows = Ok st' /\ emissions df p st rows = Ok es /\
    streaks (emit st') = streaks st ++ map fst es /\
    details (emit st') = details st ++ List.concat (map snd es).
Proof.
  induction rows as [|r rows IH]; intros st Hincl Hwf.
  - exists st, (newly_emitted st (emit st)). simpl.
    repeat split; apply newly_emitted_output; auto.
  - destruct (step_transition df p st r Hwf) as (st1 & Hs & Ht).
    { apply Hincl. now left. }
    destruct (IH st1) as (st' & es & Hscan & Hem & Hst & Hde).
    { intros x Hx. apply Hincl. now right. }
    { eapply transition_wf; eauto. }
    exists st', (newly_emitted st st1 ++ es). simpl.
    rewrite Hs. simpl. rewrite Hscan, Hem. simpl.
    destruct (newly_emitted_output st st1 (transition_output _ _ _ _ _ Ht))
      as [E1 E2].
    rewrite Hst, Hde, E1, E2, !map_app, concat_app, <- !app_assoc. auto.
Qed.

(** ** Invariants of the loop *)

Lemma emit_lengths_inv (st : state) : lengths_inv st -> lengths_inv (emit st).
Proof.
  unfold lengths_inv. rewrite emit_streaks. intros H.
  apply Forall_app. split; [assumption|].
  destruct (2 <? current_streak st) eqn:E; constructor.
  - now apply Z.ltb_lt. 
  - constructor.
Qed.

Lemma transition_lengths_inv df p st r st' :
  wf st -> lengths_inv st -> transition df p st r st' -> lengths_inv st'.
Proof.
  intros _ H Ht. destruct Ht; unfold lengths_inv; simpl; auto;
    now apply emit_lengths_inv.
Qed.

Lemma transition_pending_inv df p st r st' :
  wf st -> pending_inv st -> transition df p st r st' -> pending_inv st'.
Proof. intros _ _ Ht. destruct Ht; unfold pending_inv; simpl; auto. Qed.

Lemma transition_open_inv df p st r st' :
  wf st -> open_inv st -> transition df p st r st' -> open_inv st'.
Proof.
  intros _ Hinv Ht. unfold open_inv in *.
  destruct Ht as [ | s l d _ _ Hs Hl Hid _ Hd | s _ Hseq Hs | _ _ Hs | ];
    simpl; auto.
  - exists (ID r). rewrite range_single. repeat split; auto. lia.
  - rewrite Hs in Hinv. destruct Hinv as (l' & Hl' & Hle & Hids).
    rewrite Hl in Hl'. injection Hl' as <-.
    exists (ID r). repeat split; [lia|].
    unfold ids in *. rewrite map_app, Hids. simpl.
    rewrite Hd, Hid. apply range_snoc. lia.
  - rewrite Hs in Hinv. destruct Hinv as (l & Hl & Hle & Hids).
    unfold is_sequential in Hseq. rewrite Hl in Hseq.
    apply Z.eqb_eq in Hseq.
    exists (ID r). repeat split; [lia|].
    unfold ids in *. rewrite map_app, Hids. simpl.
    rewrite Hseq. apply range_snoc. lia.
  - now rewrite Hs in Hinv.
Qed.

(** ** Order of the emitted id ranges *)

Lemma closing_emitted (st st' : state) :
  open_inv st ->
  streaks st' = streaks (emit st) -> details st' = details (emit st) ->
  newly_emitted st st' = [] \/
  exists s l, streak_start_id st = Some s /\ last_id st = Some l /\ s <= l /\
    newly_emitted st st' = [(current_streak st, streak_details st)] /\
    ids (streak_details st) = range s (l + 1).
Proof.
  intros Hinv Es Ed. rewrite (newly_emitted_closing _ _ Es Ed).
  destruct (2 <? current_streak st) eqn:E; [right | now left].
  apply Z.ltb_lt in E. unfold open_inv in Hinv.
  destruct (streak_start_id st) as [s|]; [|lia].
  destruct Hinv as (l & Hl & Hle & Hids). exists s, l. auto.
Qed.

Lemma transition_low df p st r st' :
  open_inv st -> after st (ID r) -> transition df p st r st' ->
  forall y, low st' y -> low st y.
Proof.
  intros Hinv Haft Ht y. unfold low, after, open_inv in *.
  destruct Ht as [ | s l d _ _ Hs Hl Hid _ _ | s _ _ Hs | _ _ Hs | ]; simpl.
  - destruct (streak_start_id st) as [s|].
    + destruct Hinv as (l & Hl & Hle & _). rewrite Hl in Haft. lia.
    + destruct (last_id st); [lia | auto].
  - now rewrite Hs.
  - now rewrite Hs.
  - rewrite Hs. destruct (last_id st); [lia | auto].
  - destruct (streak_start_id st) as [s|].
    + destruct Hinv as (l & Hl & Hle & _). rewrite Hl in Haft. lia.
    + destruct (last_id st); [lia | auto].
Qed.

Lemma transition_emitted df p st r st' :
  open_inv st -> transition df p st r st' ->
  newly_emitted st st' = [] \/
  (exists s l, streak_start_id st = Some s /\ last_id st = Some l /\ s <= l /\
     newly_emitted st st' = [(current_streak st, streak_details st)] /\
     ids (streak_details st) = range s (l + 1)) /\
  (forall y, low st' y -> ID r <= y).
Proof.
  intros Hinv Ht.
  destruct Ht; try (left; now apply newly_emitted_none).
  - destruct (closing_emitted st _ Hinv eq_refl eq_refl) as [E|E];
      [left; exact E | right; split; [exact E|]].
    unfold low. simpl. auto.
  - destruct (closing_emitted st _ Hinv eq_refl eq_refl) as [E|E];
      [left; exact E | right; split; [exact E|]].
    unfold low, after. simpl. intros y Hy. lia.
Qed.

Lemma emissions_ordered (df : dataframe) (p : string) :
  forall rows st,
    incl rows df -> wf st -> open_inv st ->
    StronglySorted Z.lt (map ID rows) ->
    Forall (fun r => after st (ID r)) rows ->
    exists es,
      emissions df p st rows = Ok es /\
      Forall (StronglySorted Z.lt) (group_ids es) /\
      StronglySorted before (group_ids es) /\
      Forall (Forall (low st)) (group_ids es).
Proof.
  induction rows as [|r rows IH]; intros st Hincl Hwf Hinv Hsort Haft.
  - simpl. eexists. split; [reflexivity|].
    destruct (closing_emitted st (emit st) Hinv eq_refl eq_refl)
      as [E|(s & l & Hs & Hl & Hle & E & Hids)]; rewrite E; simpl.
    + repeat split; constructor.
    + rewrite Hids. repeat split; repeat constructor.
      * apply range_increasing.
      * apply Forall_forall. intros x Hx. apply in_range in Hx.
        unfold low. rewrite Hs. lia.
  - destruct (step_transition df p st r Hwf) as (st1 & Hstep & Ht).
    { apply Hincl. now left. }
    simpl in Hsort. inversion Hsort as [|? ? Hsort' Hlt]; subst.
    inversion Haft as [|? ? Hr Haft']; subst.
    destruct (IH st1) as (es & Hem & Hinc & Hord & Hlow).
    { intros x Hx. apply Hincl. now right. }
    { eapply transition_wf; eauto. }
    { eapply transition_open_inv; eauto. }
    { assumption. }
    { unfold after. rewrite (transition_last_id _ _ _ _ _ Ht).
      rewrite Forall_map in Hlt. exact Hlt. }
    simpl. rewrite Hstep. simpl. rewrite Hem. simpl.
    eexists. split; [reflexivity|].
    assert (Hlow' : Forall (Forall (low st)) (group_ids es)).
    { eapply Forall_impl; [|exact Hlow]. intros g Hg.
      eapply Forall_impl; [|exact Hg].
      apply (transition_low _ _ _ _ _ Hinv Hr Ht). }
    destruct (transition_emitted _ _ _ _ _ Hinv Ht)
      as [E|[(s & l & Hs & Hl & Hle & E & Hids) Hge]]; rewrite E; simpl.
    + auto.
    + rewrite Hids. repeat split; constructor; auto.
      * apply range_increasing.
      * apply Forall_forall. intros h Hh x y Hx Hy.
        apply in_range in Hx.
        rewrite Forall_forall in Hlow. specialize (Hlow h Hh).
        rewrite Forall_forall in Hlow. specialize (Hlow y Hy).
        apply Hge in Hlow. unfold after in Hr. rewrite Hl in Hr. lia.
      * apply Forall_forall. intros x Hx. apply in_range in Hx.
        unfold low. rewrite Hs. lia.
Qed.

(** Sorted ascending with no id repeated is strictly ascending. *)
Lemma sorted_unique_strict (l : list Z) :
  StronglySorted Z.le l -> NoDup l -> StronglySorted Z.lt l.
Proof.
  induction 1 as [|a l Hs IH Ha]; intros Hnd; constructor;
    inversion Hnd as [|? ? Hnin Hnd']; subst.
  - auto.
  - rewrite Forall_forall in *. intros x Hx.
    specialize (Ha x Hx). assert (a <> x) by (intros ->; contradiction). lia.
Qed.

(** ** Scenarios *)

Lemma outcome_of_Win p r : outcome_of p r = Win -> is_win p r.
Proof.
  unfold outcome_of, is_win. destruct (winner_is (Winner r) p); auto.
  destruct (winner_is (Winner r) "Draw"); discriminate.
Qed.

Lemma outcome_of_Draw p r : outcome_of p r = Draw -> is_draw p r.
Proof.
  unfold outcome_of, is_draw. destruct (winner_is (Winner r) p);
    [discriminate|].
  destruct (winner_is (Winner r) "Draw"); [auto | discriminate].
Qed.

Lemma outcome_of_Loss p r : outcome_of p r = Loss -> is_loss p r.
Proof.
  unfold outcome_of, is_loss. destruct (winner_is (Winner r) p);
    [discriminate|].
  destruct (winner_is (Winner r) "Draw"); [discriminate | auto].
Qed.

Lemma records_cons p df i o rest :
  records p df = (i, o) :: rest ->
  exists r df', df = r :: df' /\ ID r = i /\ outcome_of p r = o /\
                records p df' = rest.
Proof.
  destruct df as [|r df']; simpl; [discriminate|].
  intros H. injection H as Hi Ho Hr. eauto 6.
Qed.

Lemma records_nil p df : records p df = [] -> df = [].
Proof. destruct df; [reflexivity | discriminate]. Qed.

(** Turns [records p df = [(i1, o1); ...]] into the rows of [df], their ids
    and the results of the tests on their [Winner] cell. *)
Ltac read_records H :=
  repeat match type of H with
  | records _ _ = _ :: _ =>
      let r := fresh "r" in
      let df' := fresh "df" in
      let Hid := fresh "Hid" in
      let Ho := fresh "Ho" in
      apply records_cons in H;
      destruct H as (r & df' & -> & Hid & Ho & H);
      first [ apply outcome_of_Win in Ho; unfold is_win in Ho
            | apply outcome_of_Draw in Ho; destruct Ho as [Ho ?]
            | apply outcome_of_Loss in Ho; destruct Ho as [Ho ?] ]
  | records _ _ = [] => apply records_nil in H; subst
  end.

(** Runs the loop body on rows whose ids and [Winner] tests are known. *)
Ltac run_rows :=
  unfold calculate_streaks_and_details, emissions, scan, step, continues,
    is_sequential, lookup_detail, detail_of_row, newly_emitted, emit;
  repeat (progress (repeat match goal with
                    | H : winner_is _ _ = _ |- _ => rewrite H
                    | H : ID _ = _ |- _ => rewrite H
                    end; simpl)).

Example scenario_A (p : string) (df : dataframe) :
  records p df = [(1, Win); (2, Win); (3, Win)] ->
  calculate_streaks_and_details df p = Ok ([3 * one], map detail_of_row df).
Proof. intros H. read_records H. run_rows. reflexivity. Qed.

(** C1, as amended: for three records with ids 1, 2, 3 and outcomes Win,
    Draw, Win the scanner emits exactly one streak, of length 2.5 (1 for the
    opening win, then 1 + 0.5 for the win that confirms the draw), with
    detail entries for ids 1, 2 and 3. *)
Theorem scenario_B_length (p : string) (df : dataframe) :
  records p df = [(1, Win); (2, Draw); (3, Win)] ->
  calculate_streaks_and_details df p
  = Ok ([one + (one + half)], map detail_of_row df) /\
  ids (map detail_of_row df) = [1; 2; 3] /\
  emissions df p initial_state df
  = Ok [(one + (one + half), map detail_of_row df)].
Proof.
  intros H. read_records H. run_rows. unfold ids. run_rows. auto.
Qed.

Lemma scenario_B_length_witness :
  records "Hikaru" scenario_B = [(1, Win); (2, Draw); (3, Win)] /\
  calculate_streaks_and_details scenario_B "Hikaru"
  = Ok ([5], map detail_of_row scenario_B).
Proof.
  split; [reflexivity|].
  apply (scenario_B_length "Hikaru" scenario_B). reflexivity.
Defined.

(** C1 as stated fails: on Win, Draw, Win the emitted length is not 3. *)
Lemma win_draw_win_length_is_not_3 :
  records "Hikaru" scenario_B = [(1, Win); (2, Draw); (3, Win)] /\
  ~ exists ds,
      calculate_streaks_and_details scenario_B "Hikaru" = Ok ([3 * one], ds).
Proof.
  split; [reflexivity|]. intros [ds H]. vm_compute in H. discriminate H.
Qed.

(** C3: on Win, Win, Draw, Loss (ids 1 to 4) the scanner emits one streak
    whose detail entries include the trailing draw (id 3), while its length
    is 2: when the loss closes the streak the draw's 0.5 is still pending and
    is dropped, never added. *)
Theorem trailing_draw_detail_without_weight (p : string) (df : dataframe) :
  records p df = [(1, Win); (2, Win); (3, Draw); (4, Loss)] ->
  exists st ds,
    scan df p initial_state (firstn 3 df) = Ok st /\
    current_streak st = 2 * one /\ pending_draw st = half /\
    calculate_streaks_and_details df p = Ok ([2 * one], ds) /\
    emissions df p initial_state df = Ok [(2 * one, ds)] /\
    ds = map detail_of_row (firstn 3 df) /\
    ids ds = [1; 2; 3] /\
    (forall r, nth_error df 2 = Some r ->
               outcome_of p r = Draw /\ In (detail_of_row r) ds).
Proof.
  intros H. pose proof H as Hrec. read_records H. simpl in Hrec.
  do 2 eexists. run_rows. unfold ids. run_rows.
  repeat (split; [reflexivity|]).
  intros x Hx. injection Hx as <-. split.
  - injection Hrec as _ _ _ _ _ E _. exact E.
  - rewrite Hid1. simpl. auto.
Qed.

Lemma trailing_draw_detail_without_weight_witness :
  records "Hikaru" trailing_draw
  = [(1, Win); (2, Win); (3, Draw); (4, Loss)] /\
  exists ds,
    calculate_streaks_and_details trailing_draw "Hikaru" = Ok ([4], ds) /\
    ids ds = [1; 2; 3].
Proof.
  split; [reflexivity|].
  destruct (trailing_draw_detail_without_weight "Hikaru" trailing_draw
              eq_refl) as (st & ds & _ & _ & _ & Hc & _ & _ & Hids & _).
  exists ds. split; assumption.
Defined.

(** C8: on Win, Draw, Loss (ids 1, 2, 3) nothing is emitted: after the draw
    the open run still has length 1 with 0.5 pending, the loss drops the
    pending weight and discards the length-1 run. *)
Theorem scenario_C_nothing_emitted (p : string) (df : dataframe) :
  records p df = [(1, Win); (2, Draw); (3, Loss)] ->
  calculate_streaks_and_details df p = Ok ([], []) /\
  emissions df p initial_state df = Ok [] /\
  exists st st',
    scan df p initial_state (firstn 2 df) = Ok st /\
    current_streak st = one /\ pending_draw st = half /\
    scan df p initial_state df = Ok st' /\
    current_streak st' = 0 /\ pending_draw st' = 0 /\
    streak_start_id st' = None.
Proof.
  intros H. read_records H. run_rows.
  repeat (split; [reflexivity|]).
  do 2 eexists. repeat (split; [reflexivity|]). reflexivity.
Qed.

Lemma scenario_C_nothing_emitted_witness :
  records "Hikaru" scenario_C = [(1, Win); (2, Draw); (3, Loss)] /\
  calculate_streaks_and_details scenario_C "Hikaru" = Ok ([], []).
Proof.
  split; [reflexivity|].
  apply (scenario_C_nothing_emitted "Hikaru" scenario_C). reflexivity.
Defined.

(** C9: on two wins with ids 1 and 3 nothing is emitted: the row with id 3
    is not sequential, so the run opened at id 1 (length 1) is dropped and a
    new run of length 1 is opened at id 3, which the end of input drops. *)
Theorem scenario_D_nothing_emitted (p : string) (df : dataframe) :
  records p df = [(1, Win); (3, Win)] ->
  calculate_streaks_and_details df p = Ok ([], []) /\
  emissions df p initial_state df = Ok [] /\
  exists st st',
    scan df p initial_state (firstn 1 df) = Ok st /\
    current_streak st = one /\ streak_start_id st = Some 1 /\
    is_sequential st 3 = false /\
    scan df p initial_state df = Ok st' /\
    current_streak st' = one /\ streak_start_id st' = Some 3 /\
    ids (streak_details st') = [3] /\
    streaks st' = [] /\ details st' = [].
Proof.
  intros H. read_records H. run_rows.
  repeat (split; [reflexivity|]).
  do 2 eexists. repeat (split; [reflexivity|]). reflexivity.
Qed.

Lemma scenario_D_nothing_emitted_witness :
  records "Hikaru" scenario_D = [(1, Win); (3, Win)] /\
  calculate_streaks_and_details scenario_D "Hikaru" = Ok ([], []).
Proof.
  split; [reflexivity|].
  apply (scenario_D_nothing_emitted "Hikaru" scenario_D). reflexivity.
Defined.

(** ** Properties of the scanner on every input *)

Lemma step_output df p st r st' :
  step df p st r = Ok st' ->
  (streaks st' = streaks st /\ details st' = details st) \/
  (streaks st' = streaks (emit st) /\ details st' = details (emit st)).
Proof.
  unfold step.
  destruct (winner_is (Winner r) p).
  - destruct (continues st r).
    + destruct (last_id st); [|discriminate].
      destruct (mapM _ _); simpl; [|discriminate].
      intros H. injection H as <-. simpl. auto.
    + simpl. intros H. injection H as <-. simpl. auto.
  - destruct (winner_is (Winner r) "Draw" && is_sequential st (ID r)).
    + destruct (streak_start_id st); simpl;
        intros H; injection H as <-; simpl; auto.
    + simpl. intros H. injection H as <-. simpl. auto.
Qed.

Lemma calculate_emissions (df : dataframe) (p : string) :
  exists es,
    emissions df p initial_state df = Ok es /\
    calculate_streaks_and_details df p
    = Ok (map fst es, List.concat (map snd es)).
Proof.
  destruct (emissions_output df p df initial_state (incl_refl _) wf_initial)
    as (st & es & Hscan & Hem & Hs & Hd).
  exists es. split; [assumption|].
  unfold calculate_streaks_and_details. rewrite Hscan. simpl.
  now rewrite Hs, Hd.
Qed.

(** C5: on every input the scanner returns, and every emitted length is
    strictly greater than 1; a run whose length is at most 1 when it is
    closed, by a row or by the end of input, adds nothing to the output. *)
Theorem no_short_streak_emitted (df : dataframe) (p : string) :
  (exists es,
     emissions df p initial_state df = Ok es /\
     calculate_streaks_and_details df p
     = Ok (map fst es, List.concat (map snd es)) /\
     Forall (fun x => one < x) (map fst es)) /\
  (forall st, current_streak st <= one ->
     emit st = st /\
     forall r st', step df p st r = Ok st' ->
       streaks st' = streaks st /\ details st' = details st).
Proof.
  split.
  - destruct (calculate_emissions df p) as (es & Hem & Hcalc).
    exists es. repeat split; try assumption.
    destruct (scan_invariant df p lengths_inv (transition_lengths_inv df p)
                df initial_state (incl_refl _) wf_initial)
      as (st & Hscan & _ & Hinv).
    { constructor. }
    apply emit_lengths_inv in Hinv.
    unfold calculate_streaks_and_details in Hcalc.
    rewrite Hscan in Hcalc. simpl in Hcalc.
    injection Hcalc as <- _. exact Hinv.
  - intros st Hcs. pose proof (emit_discards st Hcs) as E.
    split; [exact E|]. intros r st' Hstep.
    apply step_output in Hstep. rewrite E in Hstep. tauto.
Qed.

Lemma no_short_streak_emitted_witness :
  exists st st' es,
    scan short_run_then_streak "Hikaru" initial_state
         (firstn 1 short_run_then_streak) = Ok st /\
    current_streak st = one /\ streak_start_id st = Some 1 /\
    emit st = st /\
    step short_run_then_streak "Hikaru" st (loss_row 2) = Ok st' /\
    streaks st' = [] /\ details st' = [] /\
    emissions short_run_then_streak "Hikaru" initial_state
              short_run_then_streak = Ok es /\
    calculate_streaks_and_details short_run_then_streak "Hikaru"
    = Ok (map fst es, List.concat (map snd es)) /\
    map fst es = [2 * one] /\
    Forall (fun x => one < x) (map fst es).
Proof.
  destruct (no_short_streak_emitted short_run_then_streak "Hikaru")
    as [(es & Hem & Hc & Hall) Hdis].
  set (st := mkState [] [] one (Some 1)
               [detail_of_row (win_row "Hikaru" 1)] (Some 1) 0).
  assert (Hle : current_streak st <= one) by (simpl; lia).
  destruct (Hdis st Hle) as [Hemit Hstep].
  set (st' := mkState [] [] 0 None [] (Some 2) 0).
  assert (Hs : step short_run_then_streak "Hikaru" st (loss_row 2) = Ok st')
    by reflexivity.
  destruct (Hstep (loss_row 2) st' Hs) as [Hst Hde].
  exists st, st', es.
  split; [reflexivity|]. split; [reflexivity|]. split; [reflexivity|].
  split; [exact Hemit|]. split; [exact Hs|].
  split; [exact Hst|]. split; [exact Hde|].
  split; [exact Hem|]. split; [exact Hc|]. split; [|exact Hall].
  vm_compute in Hem. injection Hem as <-. reflexivity.
Defined.

Lemma StronglySorted_adjacent {A} (R : A -> A -> Prop) (l : list A) :
  StronglySorted R l ->
  forall i a b, nth_error l i = Some a -> nth_error l (S i) = Some b -> R a b.
Proof.
  induction 1 as [|x l Hs IH Hx]; intros i a b Ha Hb.
  - destruct i; discriminate.
  - destruct i as [|i]; simpl in *.
    + injection Ha as <-. rewrite Forall_forall in Hx. apply Hx.
      destruct l; [discriminate|]. injection Hb as <-. now left.
    + eapply IH; eauto.
Qed.

(** C6, as amended: when the table is sorted ascending by id and its ids are
    unique, as the data model has them, the detail ids of every emitted
    streak are strictly increasing, and every id of an emitted streak is
    strictly below every id of the streak emitted next. *)
Theorem emitted_ranges_increasing_disjoint (df : dataframe) (p : string) :
  Sorted Z.le (map ID df) -> NoDup (map ID df) ->
  exists es,
    emissions df p initial_state df = Ok es /\
    calculate_streaks_and_details df p
    = Ok (map fst es, List.concat (map snd es)) /\
    Forall (StronglySorted Z.lt) (group_ids es) /\
    forall i g h,
      nth_error (group_ids es) i = Some g ->
      nth_error (group_ids es) (S i) = Some h ->
      forall x y, In x g -> In y h -> x < y.
Proof.
  intros Hsorted Hnodup.
  assert (Hstrict : StronglySorted Z.lt (map ID df)).
  { apply sorted_unique_strict; [|assumption].
    apply Sorted_StronglySorted; [|assumption].
    intros a b c. apply Z.le_trans. }
  destruct (emissions_ordered df p df initial_state (incl_refl _) wf_initial)
    as (es & Hem & Hinc & Hord & _).
  { reflexivity. }
  { assumption. }
  { apply Forall_forall. intros r _. exact I. }
  destruct (calculate_emissions df p) as (es' & Hem' & Hcalc).
  rewrite Hem in Hem'. injection Hem' as <-.
  exists es. repeat split; try assumption.
  intros i g h Hg Hh. exact (StronglySorted_adjacent _ _ Hord i g h Hg Hh).
Qed.

Example two_streaks_run :
  emissions two_streaks "Hikaru" initial_state two_streaks
  = Ok [(4, map detail_of_row (firstn 2 two_streaks));
        (5, map detail_of_row (skipn 3 two_streaks))].
Proof. reflexivity. Qed.

Lemma emitted_ranges_increasing_disjoint_witness :
  Sorted Z.le (map ID two_streaks) /\ NoDup (map ID two_streaks) /\
  exists es,
    emissions two_streaks "Hikaru" initial_state two_streaks = Ok es /\
    Forall (StronglySorted Z.lt) (group_ids es).
Proof.
  assert (Hs : Sorted Z.le (map ID two_streaks)).
  { simpl. repeat constructor; lia. }
  assert (Hn : NoDup (map ID two_streaks)).
  { simpl. repeat constructor; simpl; lia. }
  split; [exact Hs|]. split; [exact Hn|].
  destruct (emitted_ranges_increasing_disjoint two_streaks "Hikaru" Hs Hn)
    as (es & Hem & _ & Hinc & _).
  exists es. split; assumption.
Defined.

(** C6 as stated fails: a table sorted ascending by id in which an id is
    repeated can give two successive streaks that share that id. *)
Lemma repeated_id_ranges_overlap :
  Sorted Z.le (map ID repeated_id) /\
  ~ exists es,
      emissions repeated_id "Hikaru" initial_state repeated_id = Ok es /\
      Forall (StronglySorted Z.lt) (group_ids es) /\
      forall i g h,
        nth_error (group_ids es) i = Some g ->
        nth_error (group_ids es) (S i) = Some h ->
        forall x y, In x g -> In y h -> x < y.
Proof.
  split.
  - simpl. repeat constructor; lia.
  - intros (es & Hem & _ & Hdis).
    vm_compute in Hem. injection Hem as <-.
    assert (H : 2 < 2).
    { apply (Hdis 0%nat [1; 2] [2; 3]); try reflexivity; simpl; auto. }
    lia.
Qed.

(** *** The win-continuation step *)

Lemma continues_range (st : state) (r : row) (l : Z) :
  continues st r = true -> last_id st = Some l ->
  ID r = l + 1 /\ range (l + 1) (ID r + 1) = [ID r].
Proof.
  intros Hc Hl. destruct (continues_true _ _ Hc) as (s & _ & Hseq).
  unfold is_sequential in Hseq. rewrite Hl in Hseq. apply Z.eqb_eq in Hseq.
  split; [assumption|]. rewrite Hseq. apply range_single.
Qed.

Lemma step_continuation (df : dataframe) (p : string) st r l :
  is_win p r -> continues st r = true -> last_id st = Some l ->
  step df p st r
  = (ds <- mapM (lookup_detail df) (range (l + 1) (ID r + 1)) ;;
     Ok (mkState (streaks st) (details st)
                 (current_streak st + (one + pending_draw st))
                 (streak_start_id st) (streak_details st ++ ds)
                 (Some (ID r)) 0)).
Proof.
  intros Hw Hc Hl. unfold step. unfold is_win in Hw. rewrite Hw, Hc, Hl.
  destruct (mapM _ _); reflexivity.
Qed.

(** C4 as stated fails: no input makes the range of the win-continuation
    step hold an id other than the current one. *)
Lemma no_skipped_id_in_continuation : ~ skipped_id_in_continuation.
Proof.
  intros (df & p & pre & post & r & st & l & id & _ & _ & _ & Hc & Hl & Hin & Hne).
  destruct (continues_range st r l Hc Hl) as [_ E].
  rewrite E in Hin. destruct Hin as [<-|[]]. now apply Hne.
Qed.

(** C4, as amended: in the win-continuation step the scanner appends a detail
    entry for every id of [range(last_id + 1, id + 1)], each looked up from
    the whole table by id (first row with that id); the step is taken only
    when [id = last_id + 1], so the range is the current id alone and one
    entry is appended. *)
Theorem continuation_appends_current_id
  (df : dataframe) (p : string) (st : state) (r : row) (l : Z) :
  is_win p r -> continues st r = true -> last_id st = Some l ->
  step df p st r
  = (ds <- mapM (lookup_detail df) (range (l + 1) (ID r + 1)) ;;
     Ok (mkState (streaks st) (details st)
                 (current_streak st + (one + pending_draw st))
                 (streak_start_id st) (streak_details st ++ ds)
                 (Some (ID r)) 0)) /\
  range (l + 1) (ID r + 1) = [ID r] /\
  (In r df ->
   exists r0 st',
     find (fun x => ID x =? ID r) df = Some r0 /\
     step df p st r = Ok st' /\
     streak_details st'
     = streak_details st
       ++ [mkDetail (ID r) (Opponent_ELO r0)
                    (ELO_Difference_In_Terms_of_Player r0)]).
Proof.
  intros Hw Hc Hl. destruct (continues_range st r l Hc Hl) as [Hid E].
  pose proof (step_continuation df p st r l Hw Hc Hl) as Hstep.
  split; [exact Hstep|]. split; [exact E|].
  intros Hin. destruct (lookup_detail_found df r Hin) as (r0 & _ & _ & Hf & Hd).
  exists r0. eexists. split; [exact Hf|].
  rewrite Hstep, E. simpl. rewrite Hd. simpl. split; reflexivity.
Qed.

Lemma continuation_appends_current_id_witness :
  exists st st',
    scan scenario_B "Hikaru" initial_state (firstn 2 scenario_B) = Ok st /\
    step scenario_B "Hikaru" st (win_row "Hikaru" 3) = Ok st' /\
    range (2 + 1) (3 + 1) = [3] /\
    ids (streak_details st') = [1; 2; 3].
Proof.
  eexists. 
  destruct (continuation_appends_current_id scenario_B "Hikaru"
              (mkState [] [] one (Some 1)
                 [detail_of_row (win_row "Hikaru" 1);
                  detail_of_row (draw_row 2)] (Some 2) half)
              (win_row "Hikaru" 3) 2 eq_refl eq_refl eq_refl)
    as (_ & Hr & Hex).
  destruct Hex as (r0 & st' & _ & Hstep & Hd).
  { simpl. auto. }
  exists st'. split; [reflexivity|]. split; [exact Hstep|].
  split; [exact Hr|].
  unfold ids. rewrite Hd. simpl. reflexivity.
Defined.

(** *** The pending draw weight *)

Lemma range_cons (lo hi : Z) : lo < hi -> range lo hi = lo :: range (lo + 1) hi.
Proof.
  intros H. unfold range.
  replace (Z.to_nat (hi - lo)) with (S (Z.to_nat (hi - (lo + 1)))) by lia.
  simpl. f_equal; [lia|].
  rewrite <- seq_shift, map_map. apply map_ext. intros i. lia.
Qed.

Lemma step_draw_in df p st r s l :
  is_draw p r -> streak_start_id st = Some s -> last_id st = Some l ->
  ID r = l + 1 ->
  step df p st r
  = Ok (mkState (streaks st) (details st) (current_streak st) (Some s)
                (streak_details st ++ [detail_of_row r]) (Some (ID r)) half).
Proof.
  intros [Hw Hd] Hs Hl Hid. unfold step, is_sequential.
  rewrite Hw, Hd, Hl, Hs, Hid, Z.eqb_refl. reflexivity.
Qed.

Lemma step_win_continue df p st r s l :
  is_win p r -> streak_start_id st = Some s -> last_id st = Some l ->
  ID r = l + 1 -> In r df ->
  exists d,
    step df p st r
    = Ok (mkState (streaks st) (details st)
                  (current_streak st + (one + pending_draw st)) (Some s)
                  (streak_details st ++ [d]) (Some (ID r)) 0).
Proof.
  intros Hw Hs Hl Hid Hin.
  assert (Hc : continues st r = true).
  { unfold continues, is_sequential. rewrite Hs, Hl, Hid, Z.eqb_refl.
    reflexivity. }
  destruct (continues_range st r l Hc Hl) as [_ E].
  destruct (lookup_detail_found df r Hin) as (r0 & _ & _ & _ & Hd).
  eexists. rewrite (step_continuation df p st r l Hw Hc Hl), E. simpl.
  rewrite Hd, Hs. simpl. reflexivity.
Qed.

Lemma scan_draws df p :
  forall draws st s l,
    streak_start_id st = Some s -> last_id st = Some l ->
    map ID draws = range (l + 1) (l + 1 + Z.of_nat (List.length draws)) ->
    Forall (is_draw p) draws ->
    exists st',
      scan df p st draws = Ok st' /\
      streaks st' = streaks st /\ details st' = details st /\
      streak_start_id st' = Some s /\
      last_id st' = Some (l + Z.of_nat (List.length draws)) /\
      current_streak st' = current_streak st /\
      (draws <> [] -> pending_draw st' = half).
Proof.
  induction draws as [|r draws IH]; intros st s l Hs Hl Hids Hall.
  - exists st. simpl. rewrite Z.add_0_r. repeat split; auto.
    intros H. now contradiction H.
  - inversion Hall as [|? ? Hr Hall']; subst.
    rewrite range_cons in Hids by (simpl List.length; lia).
    simpl map in Hids. injection Hids as Hid Hids.
    simpl scan. rewrite (step_draw_in df p st r s l Hr Hs Hl Hid). simpl.
    edestruct (IH (mkState (streaks st) (details st) (current_streak st)
                     (Some s) (streak_details st ++ [detail_of_row r])
                     (Some (ID r)) half) s (ID r))
      as (st' & Hscan & Hst & Hde & Hs' & Hl' & Hcs & Hp);
      try reflexivity; try assumption.
    { rewrite Hids, Hid. f_equal. simpl List.length. lia. }
    exists st'. simpl in *. repeat split; try assumption.
    + rewrite Hl'. f_equal. lia.
    + intros _. destruct draws as [|r' draws'].
      * simpl in Hscan. injection Hscan as <-. reflexivity.
      * apply Hp. discriminate.
Qed.

(** C10: at every point of a scan the pending draw weight is 0 or 0.5; it is
    set, not added to: from an open streak, k >= 1 sequential draws followed
    by a sequential win raise the streak's length by exactly 1 + 0.5. *)
Theorem pending_draw_overwritten (df : dataframe) (p : string) :
  (forall n, exists st,
      scan df p initial_state (firstn n df) = Ok st /\
      (pending_draw st = 0 \/ pending_draw st = half)) /\
  (forall st s l draws w,
      streak_start_id st = Some s -> last_id st = Some l ->
      draws <> [] ->
      map ID draws = range (l + 1) (l + 1 + Z.of_nat (List.length draws)) ->
      Forall (is_draw p) draws ->
      is_win p w -> ID w = l + Z.of_nat (List.length draws) + 1 ->
      In w df ->
      exists st',
        scan df p st (draws ++ [w]) = Ok st' /\
        current_streak st' = current_streak st + (one + half) /\
        pending_draw st' = 0).
Proof.
  split.
  - intros n.
    destruct (scan_invariant df p pending_inv (transition_pending_inv df p)
                (firstn n df) initial_state)
      as (st & Hscan & _ & Hinv).
    + intros x Hx. rewrite <- (firstn_skipn n df). apply in_or_app. now left.
    + exact wf_initial.
    + left. reflexivity.
    + exists st. split; assumption.
  - intros st s l draws w Hs Hl Hne Hids Hall Hw Hid Hin.
    destruct (scan_draws df p draws st s l Hs Hl Hids Hall)
      as (st1 & Hscan & _ & _ & Hs1 & Hl1 & Hcs & Hp).
    destruct (step_win_continue df p st1 w s _ Hw Hs1 Hl1 Hid Hin)
      as (d & Hstep).
    rewrite scan_app, Hscan. simpl. rewrite Hstep. simpl.
    eexists. split; [reflexivity|]. simpl.
    rewrite Hcs, (Hp Hne). auto.
Qed.

Example double_draw_run :
  calculate_streaks_and_details double_draw "Hikaru"
  = Ok ([one + (one + half)], map detail_of_row double_draw).
Proof. reflexivity. Qed.

Lemma pending_draw_overwritten_witness :
  exists st st',
    scan double_draw "Hikaru" initial_state (firstn 1 double_draw) = Ok st /\
    scan double_draw "Hikaru" st [draw_row 2; draw_row 3; win_row "Hikaru" 4]
    = Ok st' /\
    current_streak st' = current_streak st + (one + half).
Proof.
  eexists.
  destruct (proj2 (pending_draw_overwritten double_draw "Hikaru")
              (mkState [] [] one (Some 1)
                 [detail_of_row (win_row "Hikaru" 1)] (Some 1) 0)
              1 1 [draw_row 2; draw_row 3] (win_row "Hikaru" 4))
    as (st' & Hscan & Hcs & _).
  - reflexivity.
  - reflexivity.
  - discriminate.
  - reflexivity.
  - repeat constructor.
  - reflexivity.
  - reflexivity.
  - simpl. auto.
  - exists st'. split; [reflexivity|]. split; [exact Hscan | exact Hcs].
Defined.

(** ** Properties of the aggregator *)

Lemma fold_left_max_spec (xs : list Z) (x : Z) :
  let m := fold_left Z.max xs x in
  In m (x :: xs) /\ Forall (fun y => y <= m) (x :: xs).
Proof.
  revert x. induction xs as [|a xs IH]; intros x; simpl.
  - split; [now left | repeat constructor; lia].
  - destruct (IH (Z.max x a)) as [Hin Hall]. simpl in Hin.
    inversion Hall as [|? ? Hm Hall']; subst.
    set (m := fold_left Z.max xs (Z.max x a)) in *. clearbody m. split.
    + destruct Hin as [E|Hin]; [|auto].
      destruct (Z.max_spec x a) as [[_ E']|[_ E']]; rewrite E' in E; auto.
    + repeat constructor; try assumption; lia.
Qed.

Lemma series_max_nonempty (data : list halves) :
  data <> [] ->
  exists m, series_max data = Fin m /\ In m data /\
            Forall (fun y => y <= m) data.
Proof.
  destruct data as [|x xs]; [intros H; now contradiction H | intros _].
  exists (fold_left Z.max xs x). split; [reflexivity|].
  apply fold_left_max_spec.
Qed.

Lemma ceil_div_half (a : Z) : ceil_div a half = a.
Proof. unfold ceil_div, half. rewrite Z.div_1_r. lia. Qed.

(** The grid of the aggregator: from 2 up to [m], by 0.5. *)
Lemma np_arange_grid (m : halves) :
  np_arange (Fin (2 * one)) (fadd (Fin m) (Fin half)) (Fin half)
  = Ok (range (2 * one) (m + half)).
Proof.
  unfold np_arange, fadd. simpl (half =? 0). cbv iota.
  rewrite ceil_div_half. unfold range. f_equal.
  apply map_ext. intros i. unfold half. lia.
Qed.

Lemma count_eq_count_occ (data : list halves) (x : halves) :
  count_eq data x = count_occ Z.eq_dec data x.
Proof.
  unfold count_eq. induction data as [|a data IH]; simpl; [reflexivity|].
  destruct (Z.eq_dec a x) as [->|Hne].
  - rewrite Z.eqb_refl. simpl. now rewrite IH.
  - apply Z.eqb_neq in Hne. now rewrite Hne.
Qed.

Lemma nth_range (lo hi : Z) (i : nat) :
  (i < List.length (range lo hi))%nat ->
  nth i (range lo hi) 0 = lo + Z.of_nat i.
Proof.
  unfold range. rewrite length_map, length_seq. intros Hi.
  rewrite (nth_indep _ 0 (lo + Z.of_nat 0)) by now rewrite length_map, length_seq.
  rewrite (map_nth (fun i => lo + Z.of_nat i)), seq_nth by assumption.
  reflexivity.
Qed.

(** C7: for a non-empty list of lengths the aggregator returns a table whose
    [Xi] column is exactly 2, 2.5, 3, ... up to the maximum length, in
    steps of 0.5 with none missing, and whose [Fi] entry for each [Xi] is
    the number of streaks of exactly that length, zero included. *)
Theorem frequency_table_dense (data : list halves) :
  data <> [] ->
  exists m table,
    series_max data = Fin m /\ In m data /\ Forall (fun x => x <= m) data /\
    create_combined_frequencies_dataframe data = Ok table /\
    (forall x, In x (map fst table) <-> 2 * one <= x <= m) /\
    (forall i, (i < List.length table)%nat ->
               nth i (map fst table) 0 = 2 * one + Z.of_nat i * half) /\
    (forall x c, In (x, c) table <->
                 2 * one <= x <= m /\ c = count_occ Z.eq_dec data x).
Proof.
  intros Hne. destruct (series_max_nonempty data Hne) as (m & Hmax & Hin & Hall).
  set (grid := range (2 * one) (m + half)).
  exists m, (map (fun xi => (xi, count_eq data xi)) grid).
  assert (Hfst : map fst (map (fun xi => (xi, count_eq data xi)) grid) = grid).
  { rewrite map_map. simpl. apply map_id. }
  do 3 (split; [assumption|]).
  split.
  { unfold create_combined_frequencies_dataframe.
    rewrite Hmax, np_arange_grid. reflexivity. }
  split.
  { intros x. rewrite Hfst. unfold grid. rewrite in_range. unfold half. lia. }
  split.
  { intros i Hi. rewrite Hfst. rewrite length_map in Hi. unfold grid.
    rewrite nth_range by assumption. unfold half. lia. }
  intros x c. rewrite in_map_iff. split.
  - intros (y & E & Hy). injection E as <- <-.
    apply in_range in Hy. unfold half in Hy.
    split; [lia | apply count_eq_count_occ].
  - intros [Hx ->]. exists x. split.
    + now rewrite count_eq_count_occ.
    + apply in_range. unfold half. lia.
Qed.

Lemma frequency_table_dense_witness :
  [4; 6; 6; 7] <> [] /\
  create_combined_frequencies_dataframe [4; 6; 6; 7]
  = Ok [(4, 1%nat); (5, 0%nat); (6, 2%nat); (7, 1%nat)] /\
  exists m table,
    series_max [4; 6; 6; 7] = Fin m /\
    create_combined_frequencies_dataframe [4; 6; 6; 7] = Ok table /\
    forall x, In x (map fst table) <-> 2 * one <= x <= m.
Proof.
  assert (Hne : [4; 6; 6; 7] <> []) by discriminate.
  split; [exact Hne|]. split; [reflexivity|].
  destruct (frequency_table_dense [4; 6; 6; 7] Hne)
    as (m & table & Hm & _ & _ & Ht & Hdom & _).
  exists m, table. split; [exact Hm|]. split; [exact Ht | exact Hdom].
Defined.

(** C2, as amended: on an empty list of lengths the maximum is NaN, the NaN
    is passed on to the grid construction, and the aggregator fails there,
    with the [ValueError] of [np.arange]; no table, empty or not, is
    returned, and there is no earlier check for an empty input. *)
Theorem empty_input_fails_in_grid_construction :
  series_max [] = NaN /\
  fadd (series_max []) (Fin half) = NaN /\
  create_combined_frequencies_dataframe []
  = (xi_values <- np_arange (Fin (2 * one)) NaN (Fin half) ;;
     Ok (map (fun xi => (xi, count_eq [] xi)) xi_values)) /\
  create_combined_frequencies_dataframe [] = Raise ValueError_arange_length /\
  forall table, create_combined_frequencies_dataframe [] <> Ok table.
Proof. repeat split. intros table H. discriminate H. Qed.

(** C2 as stated fails: the error raised on an empty list is the one the grid
    construction raises on a NaN bound, not a separate empty-input error. *)
Lemma empty_input_error_not_explicit :
  ~ exists e,
      create_combined_frequencies_dataframe [] = Raise e /\
      np_arange (Fin (2 * one)) (fadd NaN (Fin half)) (Fin half) <> Raise e.
Proof.
  intros (e & He & Hne). apply Hne.
  vm_compute in He. injection He as <-. reflexivity.
Qed.

(** * Further properties *)

(** ** Shape of the emitted streaks *)

(** The loop never raises, and a property kept by the transitions of rows of
    the table holds of every streak it emits. *)
Lemma emissions_invariant (df : dataframe) (p : string)
      (I : state -> Prop) (Q : halves * list detail -> Prop) :
  (forall st r st', In r df -> I st -> transition df p st r st' -> I st') ->
  (forall st, I st -> 2 < current_streak st ->
              Q (current_streak st, streak_details st)) ->
  forall rows st, incl rows df -> wf st -> I st ->
    exists es, emissions df p st rows = Ok es /\ Forall Q es.
Proof.
  intros Hstep Hemit.
  assert (Hclose : forall st st', I st ->
            streaks st' = streaks (emit st) ->
            details st' = details (emit st) ->
            Forall Q (newly_emitted st st')).
  { intros st st' HI Es Ed. rewrite (newly_emitted_closing _ _ Es Ed).
    destruct (2 <? current_streak st) eqn:E; constructor.
    - apply Hemit; [assumption | now apply Z.ltb_lt].
    - constructor. }
  induction rows as [|r rows IH]; intros st Hincl Hwf HI.
  - simpl. eexists. split; [reflexivity|]. now apply Hclose.
  - assert (Hr : In r df) by (apply Hincl; now left).
    destruct (step_transition df p st r Hwf Hr) as (st1 & Hs & Ht).
    destruct (IH st1) as (es & Hem & Hall).
    { intros x Hx. apply Hincl. now right. }
    { eapply transition_wf; eauto. }
    { eapply Hstep; eauto. }
    simpl. rewrite Hs. simpl. rewrite Hem. simpl.
    eexists. split; [reflexivity|]. apply Forall_app. split; [|assumption].
    destruct (transition_output _ _ _ _ _ Ht) as [[Es Ed]|[Es Ed]].
    + rewrite (newly_emitted_none _ _ Es). constructor.
    + now apply Hclose.
Qed.

Lemma length_range (lo hi : Z) :
  List.length (range lo hi) = Z.to_nat (hi - lo).
Proof. unfold range. now rewrite length_map, length_seq. Qed.

(** Reduces the projections of a state given by its fields. *)
Ltac state_fields :=
  cbn [streaks details current_streak streak_start_id streak_details last_id
       pending_draw].

Lemma transition_run_inv df p st r st' :
  In r df -> run_inv st -> transition df p st r st' -> run_inv st'.
Proof.
  intros _ [Hp Hinv] Ht. unfold run_inv in *.
  destruct Ht as [ | s l d _ _ Hs Hl Hid _ Hd | s _ Hseq Hs | _ _ Hs | ];
    state_fields.
  - split; [now left|]. exists (ID r). rewrite range_single. simpl.
    repeat split; auto; unfold one; try lia.
  - split; [now left|]. rewrite Hs in Hinv.
    destruct Hinv as (l' & Hl' & Hle & Hids & Hcs & Hlen).
    rewrite Hl in Hl'. injection Hl' as <-.
    exists (ID r). repeat split; [lia | | | ].
    + unfold ids in *. rewrite map_app, Hids. simpl.
      rewrite Hd, Hid. apply range_snoc. lia.
    + right. unfold one, half in *. lia.
    + rewrite length_app. simpl List.length. unfold one, half in *. lia.
  - split; [now right|]. rewrite Hs in Hinv.
    destruct Hinv as (l & Hl & Hle & Hids & Hcs & Hlen).
    unfold is_sequential in Hseq. rewrite Hl in Hseq.
    apply Z.eqb_eq in Hseq.
    exists (ID r). repeat split; [lia | | | ].
    + unfold ids in *. rewrite map_app, Hids. simpl.
      rewrite Hseq. apply range_snoc. lia.
    + destruct Hcs as [Hcs|[Hcs Hlt]]; [now left | right; split; lia].
    + rewrite length_app. simpl List.length. unfold one, half in *. lia.
  - split; [now left|]. now rewrite Hs in Hinv.
  - split; [now left | reflexivity].
Qed.

Lemma run_inv_initial : run_inv initial_state.
Proof. split; [now left | reflexivity]. Qed.

Lemma run_inv_emit (st : state) :
  run_inv st -> 2 < current_streak st ->
  well_formed_streak (current_streak st, streak_details st).
Proof.
  intros [Hp Hinv] Hcs. unfold well_formed_streak. cbn [fst snd].
  destruct (streak_start_id st) as [s|]; [|lia].
  destruct Hinv as (l & Hl & Hle & Hids & Hshape & Hlen).
  destruct Hshape as [E|[Hge Hlt]]; [unfold one in *; lia|].
  repeat split; [assumption | | eauto].
  destruct Hp as [Hp|Hp]; rewrite Hp in Hlen; unfold one, half in *; lia.
Qed.

(** X1: on every table the scanner returns, and every streak it emits has a
    length of at least 2 (1.5 is never emitted), which is at most the number
    of its detail entries, and its detail ids are the consecutive integers
    of a range with at least two ids. *)
Theorem emitted_streaks_well_formed (df : dataframe) (p : string) :
  exists es,
    emissions df p initial_state df = Ok es /\
    calculate_streaks_and_details df p
    = Ok (map fst es, List.concat (map snd es)) /\
    Forall well_formed_streak es.
Proof.
  destruct (emissions_invariant df p run_inv well_formed_streak
              (transition_run_inv df p) run_inv_emit
              df initial_state (incl_refl _) wf_initial run_inv_initial)
    as (es & Hem & Hall).
  destruct (calculate_emissions df p) as (es' & Hem' & Hcalc).
  rewrite Hem in Hem'. injection Hem' as <-.
  exists es. auto.
Qed.

(** ** Look-ups by id *)

Lemma unique_id_row (df : dataframe) (r r0 : row) :
  NoDup (map ID df) -> In r df -> In r0 df -> ID r = ID r0 -> r = r0.
Proof.
  induction df as [|a df IH]; intros Hnd Hr Hr0 Hid; [contradiction|].
  simpl in Hnd. inversion Hnd as [|? ? Hnin Hnd']; subst.
  destruct Hr as [->|Hr], Hr0 as [->|Hr0]; auto.
  - exfalso. apply Hnin. rewrite Hid. now apply in_map.
  - exfalso. apply Hnin. rewrite <- Hid. now apply in_map.
Qed.

Lemma lookup_detail_unique (df : dataframe) (r : row) :
  NoDup (map ID df) -> In r df ->
  lookup_detail df (ID r) = Ok (detail_of_row r).
Proof.
  intros Hnd Hin.
  destruct (lookup_detail_found df r Hin) as (r0 & Hin0 & Hid & _ & Hd).
  rewrite Hd. now rewrite (unique_id_row df r r0 Hnd Hin Hin0 (eq_sym Hid)).
Qed.

Lemma is_win_not_Loss p r : is_win p r -> outcome_of p r <> Loss.
Proof. unfold is_win, outcome_of. intros ->. discriminate. Qed.

Lemma is_draw_not_Loss p r : is_draw p r -> outcome_of p r <> Loss.
Proof. unfold is_draw, outcome_of. intros [-> ->]. discriminate. Qed.

Lemma transition_own_entries df p st r st' :
  NoDup (map ID df) -> In r df ->
  Forall (own_entry df p) (streak_details st) ->
  transition df p st r st' ->
  Forall (own_entry df p) (streak_details st').
Proof.
  intros Hnd Hin Hall Ht.
  destruct Ht as [Hw _ | s l d Hw _ _ _ _ Hd _ | s Hdr _ _ | | ]; state_fields;
    auto.
  - constructor; [|constructor]. exists r. auto using is_win_not_Loss.
  - apply Forall_app. split; [assumption|].
    rewrite (lookup_detail_unique df r Hnd Hin) in Hd. injection Hd as <-.
    constructor; [|constructor]. exists r. auto using is_win_not_Loss.
  - apply Forall_app. split; [assumption|].
    constructor; [|constructor]. exists r. auto using is_draw_not_Loss.
Qed.

(** X2: when the ids of the table are unique, every detail entry the scanner
    returns is the id, opponent rating and rating difference of one row of
    the table, a row the player won or drew; the look-up by id in the
    continuation step returns the current row's own data. *)
Theorem details_are_rows_of_the_table (df : dataframe) (p : string) :
  NoDup (map ID df) ->
  (forall r, In r df -> lookup_detail df (ID r) = Ok (detail_of_row r)) /\
  exists streaks details,
    calculate_streaks_and_details df p = Ok (streaks, details) /\
    Forall (own_entry df p) details.
Proof.
  intros Hnd. split; [intros r; now apply lookup_detail_unique|].
  destruct (emissions_invariant df p
              (fun st => Forall (own_entry df p) (streak_details st))
              (fun e => Forall (own_entry df p) (snd e)))
    with (rows := df) (st := initial_state) as (es & Hem & Hall).
  - intros st r st' Hin. now apply transition_own_entries.
  - intros st H _. exact H.
  - apply incl_refl.
  - exact wf_initial.
  - constructor.
  - destruct (calculate_emissions df p) as (es' & Hem' & Hcalc).
    rewrite Hem in Hem'. injection Hem' as <-.
    do 2 eexists. split; [exact Hcalc|].
    apply Forall_concat. now apply Forall_map.
Qed.

Lemma details_are_rows_of_the_table_witness :
  NoDup (map ID two_streaks) /\
  exists streaks details,
    calculate_streaks_and_details two_streaks "Hikaru"
    = Ok (streaks, details) /\
    Forall (own_entry two_streaks "Hikaru") details.
Proof.
  assert (Hn : NoDup (map ID two_streaks)).
  { simpl. repeat constructor; simpl; lia. }
  split; [exact Hn|].
  exact (proj2 (details_are_rows_of_the_table two_streaks "Hikaru" Hn)).
Defined.

(** ** Streaks and wins *)

Lemma wins_cons p r rows :
  wins p (r :: rows)
  = if winner_is (Winner r) p then r :: wins p rows else wins p rows.
Proof. reflexivity. Qed.

Lemma length_streaks_emit (st : state) :
  List.length (streaks (emit st))
  = Nat.add (List.length (streaks st))
            (if 2 <? current_streak st then 1%nat else 0%nat).
Proof.
  rewrite emit_streaks, length_app.
  destruct (2 <? current_streak st); reflexivity.
Qed.

(** [w] counts the wins of the run in progress, [n] the wins seen so far. *)
Lemma scan_wins_bound (df : dataframe) (p : string) :
  forall rows st (w n : nat),
    incl rows df -> wf st ->
    (2 * List.length (streaks st) + w <= n)%nat ->
    (streak_start_id st <> None -> (1 <= w)%nat) ->
    (2 < current_streak st -> (2 <= w)%nat) ->
    exists st',
      scan df p st rows = Ok st' /\
      (2 * List.length (streaks (emit st'))
       <= n + List.length (wins p rows))%nat.
Proof.
  induction rows as [|r rows IH]; intros st w n Hincl Hwf Hn Hopen Hlong.
  - exists st. split; [reflexivity|]. rewrite length_streaks_emit. simpl.
    destruct (2 <? current_streak st) eqn:E; [|lia].
    apply Z.ltb_lt in E. specialize (Hlong E). lia.
  - assert (Hr : In r df) by (apply Hincl; now left).
    assert (Hincl' : incl rows df) by (intros x Hx; apply Hincl; now right).
    destruct (step_transition df p st r Hwf Hr) as (st1 & Hs & Ht).
    pose proof (transition_wf _ _ _ _ _ Ht) as Hwf1.
    simpl scan. rewrite Hs. cbn [bind]. rewrite wins_cons.
    assert (Hemit : (2 * List.length (streaks (emit st)) <= n)%nat).
    { rewrite length_streaks_emit.
      destruct (2 <? current_streak st) eqn:E; [|lia].
      apply Z.ltb_lt in E. specialize (Hlong E). lia. }
    destruct Ht as [Hw _ | s l d Hw _ Hst _ _ _ _ | s [Hw _] _ Hst
                   | [Hw _] _ _ | Hw _]; unfold is_win in *; rewrite Hw.
    + destruct (IH _ 1%nat (S n) Hincl' Hwf1) as (st' & Hscan & Hb);
        state_fields; try (unfold one; lia).
      exists st'. split; [exact Hscan|]. simpl List.length. lia.
    + assert (1 <= w)%nat by (apply Hopen; rewrite Hst; discriminate).
      destruct (IH _ (S w) (S n) Hincl' Hwf1) as (st' & Hscan & Hb);
        state_fields; try lia.
      exists st'. split; [exact Hscan|]. simpl List.length. lia.
    + destruct (IH _ w n Hincl' Hwf1) as (st' & Hscan & Hb);
        state_fields; try assumption.
      * intros _. apply Hopen. rewrite Hst. discriminate.
      * exists st'. split; [exact Hscan|]. lia.
    + destruct (IH _ w n Hincl' Hwf1) as (st' & Hscan & Hb);
        state_fields; try assumption.
      * intros H. now contradiction H.
      * exists st'. split; [exact Hscan|]. lia.
    + destruct (IH _ 0%nat n Hincl' Hwf1) as (st' & Hscan & Hb);
        state_fields; try lia.
      * intros H. now contradiction H.
      * exists st'. split; [exact Hscan|]. lia.
Qed.

(** X3: a streak needs two wins: the scanner never returns more streaks
    than half the number of rows the player won, and when it returns no
    streak it returns no detail entry either. *)
Theorem two_wins_per_streak (df : dataframe) (p : string) :
  exists streaks details,
    calculate_streaks_and_details df p = Ok (streaks, details) /\
    (2 * List.length streaks <= List.length (wins p df))%nat /\
    (streaks = [] -> details = []).
Proof.
  destruct (scan_wins_bound df p df initial_state 0%nat 0%nat)
    as (st & Hscan & Hb); simpl; try lia.
  - apply incl_refl.
  - exact wf_initial.
  - intros H. now contradiction H.
  - destruct (calculate_emissions df p) as (es & _ & Hcalc).
    pose proof Hcalc as Hcalc'.
    unfold calculate_streaks_and_details in Hcalc'. rewrite Hscan in Hcalc'.
    simpl in Hcalc'. injection Hcalc' as Hst Hde.
    do 2 eexists. split; [exact Hcalc|]. split.
    + rewrite <- Hst. simpl in Hb. lia.
    + intros E. apply map_eq_nil in E. subst es. reflexivity.
Qed.

Lemma increasing_NoDup (l : list Z) : StronglySorted Z.lt l -> NoDup l.
Proof.
  induction 1 as [|a l Hs IH Ha]; constructor; [|assumption].
  intros Hin. rewrite Forall_forall in Ha. specialize (Ha a Hin). lia.
Qed.

(** A run of sequential wins from an open streak with nothing pending. *)
Lemma scan_win_run (df : dataframe) (p : string) :
  NoDup (map ID df) ->
  forall rows st s l,
    streak_start_id st = Some s -> last_id st = Some l ->
    pending_draw st = 0 ->
    map ID rows = range (l + 1) (l + 1 + Z.of_nat (List.length rows)) ->
    Forall (is_win p) rows -> incl rows df ->
    scan df p st rows
    = Ok (mkState (streaks st) (details st)
                  (current_streak st + one * Z.of_nat (List.length rows))
                  (Some s) (streak_details st ++ map detail_of_row rows)
                  (Some (l + Z.of_nat (List.length rows))) 0).
Proof.
  intros Hnd. induction rows as [|r rows IH];
    intros st s l Hs Hl Hp Hids Hall Hincl.
  - simpl List.length. simpl map. simpl scan.
    rewrite Z.mul_0_r, !Z.add_0_r, app_nil_r.
    destruct st. simpl in *. now subst.
  - inversion Hall as [|? ? Hw Hall']; subst.
    rewrite range_cons in Hids by (simpl List.length; lia).
    simpl map in Hids. injection Hids as Hid Hids.
    assert (Hc : continues st r = true).
    { unfold continues, is_sequential. rewrite Hs, Hl, Hid, Z.eqb_refl.
      reflexivity. }
    simpl scan. rewrite (step_continuation df p st r l Hw Hc Hl).
    rewrite (proj2 (continues_range st r l Hc Hl)). simpl mapM.
    rewrite (lookup_detail_unique df r Hnd) by (apply Hincl; now left).
    cbn [bind]. rewrite Hs, Hp.
    erewrite IH; try reflexivity; try assumption.
    + state_fields. rewrite <- app_assoc. simpl List.length. simpl app.
      f_equal. f_equal; [unfold one; lia | apply f_equal; lia].
    + state_fields. rewrite Hids, Hid. f_equal. simpl List.length. lia.
    + intros x Hx. apply Hincl. now right.
Qed.

(** X4: a table of n >= 2 wins with consecutive ids gives exactly one streak,
    of length n, whose detail entries are the rows of the table in order. *)
Theorem consecutive_wins_one_streak (df : dataframe) (p : string) (a : Z) :
  (2 <= List.length df)%nat ->
  map ID df = range a (a + Z.of_nat (List.length df)) ->
  Forall (is_win p) df ->
  calculate_streaks_and_details df p
  = Ok ([one * Z.of_nat (List.length df)], map detail_of_row df).
Proof.
  intros Hlen Hids Hall.
  assert (Hnd : NoDup (map ID df)).
  { rewrite Hids. apply increasing_NoDup, range_increasing. }
  destruct df as [|r rows]; [simpl in Hlen; lia|].
  inversion Hall as [|? ? Hw Hall']; subst.
  pose proof Hids as Hids'.
  rewrite range_cons in Hids' by (simpl List.length; lia).
  simpl map in Hids'. injection Hids' as Hid Hrows.
  unfold calculate_streaks_and_details. simpl scan.
  assert (Hstep : step (r :: rows) p initial_state r
    = Ok (mkState [] [] one (Some (ID r)) [detail_of_row r] (Some (ID r)) 0)).
  { unfold step. unfold is_win in Hw. now rewrite Hw. }
  rewrite Hstep. cbn [bind].
  rewrite (scan_win_run (r :: rows) p Hnd rows _ (ID r) (ID r));
    try reflexivity; try assumption.
  - cbn [bind]. unfold emit. state_fields.
    replace (2 <? one + one * Z.of_nat (List.length rows)) with true.
    + state_fields. simpl app.
      replace (one * Z.of_nat (List.length (r :: rows)))
        with (one + one * Z.of_nat (List.length rows));
        [reflexivity|].
      simpl List.length. unfold one. lia.
    + symmetry. apply Z.ltb_lt. simpl List.length in Hlen. unfold one. lia.
  - state_fields. rewrite Hrows, Hid. f_equal. simpl List.length. lia.
  - intros x Hx. now right.
Qed.

Lemma consecutive_wins_one_streak_witness :
  let df := [win_row "Hikaru" 7; win_row "Hikaru" 8; win_row "Hikaru" 9] in
  calculate_streaks_and_details df "Hikaru"
  = Ok ([one * 3], map detail_of_row df).
Proof.
  apply (consecutive_wins_one_streak
           [win_row "Hikaru" 7; win_row "Hikaru" 8; win_row "Hikaru" 9]
           "Hikaru" 7).
  - simpl. lia.
  - reflexivity.
  - repeat constructor.
Defined.

(** ** Independent segments *)

Lemma emit_prefix_outputs s d st :
  emit (prefix_outputs s d st) = prefix_outputs s d (emit st).
Proof.
  unfold emit, prefix_outputs. state_fields.
  destruct (2 <? current_streak st); state_fields;
    now rewrite <- ?app_assoc.
Qed.

Lemma step_prefix_outputs df p s d st r :
  step df p (prefix_outputs s d st) r
  = (st' <- step df p st r ;; Ok (prefix_outputs s d st')).
Proof.
  destruct st as [ss dd cs start sd last pend].
  unfold step, continues, is_sequential, prefix_outputs, emit. state_fields.
  destruct (winner_is (Winner r) p).
  - destruct start as [s0|], last as [l|]; cbn [is_None orb negb].
    + destruct (ID r =? l + 1); cbn [negb].
      * destruct (mapM _ _); reflexivity.
      * destruct (2 <? cs); cbn [bind]; state_fields;
          now rewrite <- ?app_assoc.
    + reflexivity.
    + destruct (2 <? cs); cbn [bind]; state_fields;
        now rewrite <- ?app_assoc.
    + destruct (2 <? cs); cbn [bind]; state_fields;
        now rewrite <- ?app_assoc.
  - destruct (winner_is (Winner r) "Draw"), last as [l|]; cbn [andb];
      try destruct (ID r =? l + 1); try destruct start;
      try (destruct (2 <? cs)); cbn [bind]; state_fields;
      now rewrite <- ?app_assoc.
Qed.

Lemma scan_prefix_outputs df p s d :
  forall rows st,
    scan df p (prefix_outputs s d st) rows
    = (st' <- scan df p st rows ;; Ok (prefix_outputs s d st')).
Proof.
  induction rows as [|r rows IH]; intros st; simpl; [reflexivity|].
  rewrite step_prefix_outputs.
  destruct (step df p st r) as [st1|e]; simpl; [apply IH | reflexivity].
Qed.

Lemma outputs_prefix df p s d st rows :
  outputs_of (scan df p (prefix_outputs s d st) rows)
  = (x <- outputs_of (scan df p st rows) ;; Ok (s ++ fst x, d ++ snd x)).
Proof.
  rewrite scan_prefix_outputs. unfold outputs_of.
  destruct (scan df p st rows) as [st'|e]; simpl; [|reflexivity].
  now rewrite emit_prefix_outputs.
Qed.

(** Between runs the last id does not matter for what follows. *)
Lemma step_closed_state df p s d l r :
  step df p (closed_state s d l) r = step df p (closed_state s d None) r.
Proof.
  unfold step, continues, is_sequential, closed_state, emit. state_fields.
  destruct (winner_is (Winner r) p); [reflexivity|].
  destruct (winner_is (Winner r) "Draw"), l as [l|]; cbn [andb];
    try destruct (ID r =? l + 1); reflexivity.
Qed.

Lemma outputs_closed_state df p s d l rows :
  outputs_of (scan df p (closed_state s d l) rows)
  = (x <- outputs_of (scan df p initial_state rows) ;;
     Ok (s ++ fst x, d ++ snd x)).
Proof.
  rewrite <- outputs_prefix.
  replace (prefix_outputs s d initial_state) with (closed_state s d None)
    by (unfold prefix_outputs, closed_state; simpl; now rewrite !app_nil_r).
  destruct rows as [|r rows]; [reflexivity|].
  simpl scan. now rewrite step_closed_state.
Qed.

Lemma step_loss df p st r :
  is_loss p r ->
  step df p st r
  = Ok (closed_state (streaks (emit st)) (details (emit st)) (Some (ID r))).
Proof. intros [Hw Hd]. unfold step. now rewrite Hw, Hd. Qed.

Lemma run_on_outputs df p rows :
  run_on df p rows = outputs_of (scan df p initial_state rows).
Proof. reflexivity. Qed.

(** A lost game separates what comes before it from what comes after. *)
Lemma run_on_loss df p rows1 l rows2 :
  is_loss p l ->
  run_on df p (rows1 ++ l :: rows2)
  = append_outputs (run_on df p rows1) (run_on df p rows2).
Proof.
  intros Hl. rewrite !run_on_outputs, scan_app. unfold append_outputs.
  unfold outputs_of at 2.
  destruct (scan df p initial_state rows1) as [st1|e]; cbn [bind];
    [|reflexivity].
  simpl scan. rewrite (step_loss df p st1 l Hl). cbn [bind].
  rewrite outputs_closed_state. reflexivity.
Qed.

Lemma step_last_id df p st r st' :
  step df p st r = Ok st' -> last_id st' = Some (ID r).
Proof.
  unfold step. 
  match goal with |- (x <- ?m ;; _) = _ -> _ => destruct m as [st1|e] end;
    simpl; [|discriminate].
  intros H. injection H as <-. reflexivity.
Qed.

Lemma scan_last_id df p rows a st st' :
  scan df p st (rows ++ [a]) = Ok st' -> last_id st' = Some (ID a).
Proof.
  rewrite scan_app. destruct (scan df p st rows) as [st1|e]; simpl;
    [|discriminate].
  destruct (step df p st1 a) as [st2|e] eqn:Hs; simpl; [|discriminate].
  intros H. injection H as <-. eapply step_last_id; eauto.
Qed.

(** A row that does not follow the last id starts afresh. *)
Lemma step_gap df p st r l :
  last_id st = Some l -> ID r <> l + 1 ->
  step df p st r
  = (st' <- step df p initial_state r ;;
     Ok (prefix_outputs (streaks (emit st)) (details (emit st)) st')).
Proof.
  intros Hl Hne. apply Z.eqb_neq in Hne.
  unfold step, continues, is_sequential, prefix_outputs. rewrite Hl, Hne.
  cbn [initial_state emit last_id streak_start_id current_streak is_None
       orb negb andb]. 
  rewrite orb_true_r, andb_false_r. cbn [negb].
  destruct (winner_is (Winner r) p); cbn [bind]; state_fields.
  - now rewrite !app_nil_r.
  - destruct (winner_is (Winner r) "Draw"); cbn [andb bind]; state_fields;
      now rewrite !app_nil_r.
Qed.

Lemma run_on_gap df p rows1 a r rows2 :
  ID r <> ID a + 1 ->
  run_on df p (rows1 ++ a :: r :: rows2)
  = append_outputs (run_on df p (rows1 ++ [a])) (run_on df p (r :: rows2)).
Proof.
  intros Hne.
  replace (rows1 ++ a :: r :: rows2) with ((rows1 ++ [a]) ++ r :: rows2)
    by (now rewrite <- app_assoc).
  rewrite !run_on_outputs, scan_app. unfold append_outputs.
  unfold outputs_of at 2.
  destruct (scan df p initial_state (rows1 ++ [a])) as [st1|e] eqn:Hscan;
    cbn [bind]; [|reflexivity].
  apply scan_last_id in Hscan.
  simpl scan. rewrite (step_gap df p st1 r (ID a) Hscan Hne).
  destruct (step df p initial_state r) as [st2|e]; cbn [bind]; [|reflexivity].
  now rewrite outputs_prefix.
Qed.

Lemma step_table_irrelevant df df' p st r :
  NoDup (map ID df) -> NoDup (map ID df') -> In r df -> In r df' -> wf st ->
  step df p st r = step df' p st r.
Proof.
  intros Hnd Hnd' Hin Hin' Hwf. unfold step.
  destruct (winner_is (Winner r) p); [|reflexivity].
  destruct (continues st r) eqn:Hc; [|reflexivity].
  destruct (last_id st) as [l|] eqn:Hl; [|reflexivity].
  rewrite (proj2 (continues_range st r l Hc Hl)). simpl mapM.
  now rewrite !lookup_detail_unique.
Qed.

Lemma scan_table_irrelevant df df' p :
  NoDup (map ID df) -> NoDup (map ID df') ->
  forall rows st, incl rows df -> incl rows df' -> wf st ->
    scan df p st rows = scan df' p st rows.
Proof.
  intros Hnd Hnd'. induction rows as [|r rows IH];
    intros st Hincl Hincl' Hwf; [reflexivity|].
  assert (Hin : In r df) by (apply Hincl; now left).
  assert (Hin' : In r df') by (apply Hincl'; now left).
  simpl. rewrite <- (step_table_irrelevant df df' p st r) by assumption.
  destruct (step_transition df p st r Hwf Hin) as (st1 & Hs & Ht).
  rewrite Hs. simpl. apply IH.
  - intros x Hx. apply Hincl. now right.
  - intros x Hx. apply Hincl'. now right.
  - eapply transition_wf; eauto.
Qed.

(** With unique ids, the scanner's results for a part of the table are its
    results on that part taken as a table. *)
Lemma run_on_part df p rows :
  NoDup (map ID df) -> NoDup (map ID rows) -> incl rows df ->
  run_on df p rows = calculate_streaks_and_details rows p.
Proof.
  intros Hnd Hnd' Hincl. unfold run_on, calculate_streaks_and_details.
  rewrite (scan_table_irrelevant df rows p Hnd Hnd' rows initial_state
             Hincl (incl_refl _) wf_initial).
  reflexivity.
Qed.

Lemma NoDup_map_app_l {A B} (f : A -> B) (l1 l2 : list A) :
  NoDup (map f (l1 ++ l2)) -> NoDup (map f l1).
Proof. rewrite map_app. apply NoDup_app_remove_r. Qed.

Lemma NoDup_map_app_r {A B} (f : A -> B) (l1 l2 : list A) :
  NoDup (map f (l1 ++ l2)) -> NoDup (map f l2).
Proof. rewrite map_app. apply NoDup_app_remove_l. Qed.

(** X5: a lost game cuts a table with unique ids in two independent parts:
    the scanner's streaks and details for the whole table are those of the
    rows before the loss followed by those of the rows after it. *)
Theorem loss_separates (p : string) (rows1 rows2 : list row) (l : row) :
  NoDup (map ID (rows1 ++ l :: rows2)) -> is_loss p l ->
  calculate_streaks_and_details (rows1 ++ l :: rows2) p
  = append_outputs (calculate_streaks_and_details rows1 p)
                   (calculate_streaks_and_details rows2 p).
Proof.
  intros Hnd Hl. set (df := rows1 ++ l :: rows2) in *.
  change (calculate_streaks_and_details df p) with (run_on df p df).
  unfold df at 2. rewrite (run_on_loss df p rows1 l rows2 Hl).
  rewrite !(run_on_part df p); try assumption.
  - reflexivity.
  - apply (NoDup_map_app_r ID (rows1 ++ [l])). unfold df in Hnd.
    now rewrite <- app_assoc.
  - intros x Hx. apply in_or_app. right. now right.
  - apply (NoDup_map_app_l ID rows1 (l :: rows2)). exact Hnd.
  - intros x Hx. apply in_or_app. now left.
Qed.

(** X6: so does a gap in the ids: when a row's id is not the id of the row
    before it plus one, the scanner's results for a table with unique ids are
    those of the rows up to the gap followed by those of the rows from the
    gap on. *)
Theorem gap_separates (p : string) (rows1 rows2 : list row) (a r : row) :
  NoDup (map ID (rows1 ++ a :: r :: rows2)) -> ID r <> ID a + 1 ->
  calculate_streaks_and_details (rows1 ++ a :: r :: rows2) p
  = append_outputs (calculate_streaks_and_details (rows1 ++ [a]) p)
                   (calculate_streaks_and_details (r :: rows2) p).
Proof.
  intros Hnd Hne. set (df := rows1 ++ a :: r :: rows2) in *.
  change (calculate_streaks_and_details df p) with (run_on df p df).
  unfold df at 2. rewrite (run_on_gap df p rows1 a r rows2 Hne).
  assert (E : df = (rows1 ++ [a]) ++ r :: rows2)
    by (unfold df; now rewrite <- app_assoc).
  rewrite !(run_on_part df p); try assumption.
  - reflexivity.
  - rewrite E in Hnd. exact (NoDup_map_app_r ID _ _ Hnd).
  - rewrite E. intros x Hx. apply in_or_app. now right.
  - rewrite E in Hnd. exact (NoDup_map_app_l ID _ _ Hnd).
  - rewrite E. intros x Hx. apply in_or_app. now left.
Qed.

Lemma loss_separates_witness :
  calculate_streaks_and_details
    ([win_row "Hikaru" 1; win_row "Hikaru" 2] ++ loss_row 3 ::
     [win_row "Hikaru" 4; draw_row 5; win_row "Hikaru" 6]) "Hikaru"
  = append_outputs
      (calculate_streaks_and_details
         [win_row "Hikaru" 1; win_row "Hikaru" 2] "Hikaru")
      (calculate_streaks_and_details
         [win_row "Hikaru" 4; draw_row 5; win_row "Hikaru" 6] "Hikaru").
Proof.
  apply loss_separates.
  - simpl. repeat constructor; simpl; lia.
  - split; reflexivity.
Defined.

Lemma gap_separates_witness :
  calculate_streaks_and_details
    ([win_row "Hikaru" 1] ++ win_row "Hikaru" 2 :: win_row "Hikaru" 5 ::
     [win_row "Hikaru" 6]) "Hikaru"
  = append_outputs
      (calculate_streaks_and_details
         ([win_row "Hikaru" 1] ++ [win_row "Hikaru" 2]) "Hikaru")
      (calculate_streaks_and_details
         [win_row "Hikaru" 5; win_row "Hikaru" 6] "Hikaru").
Proof.
  apply gap_separates.
  - simpl. repeat constructor; simpl; lia.
  - simpl. lia.
Defined.

(** ** The aggregator and the order of its input *)

Lemma series_max_Permutation (data data' : list halves) :
  Permutation data data' -> series_max data = series_max data'.
Proof.
  intros Hp. destruct data as [|x xs].
  - apply Permutation_nil in Hp. now subst.
  - destruct data' as [|y ys].
    + apply Permutation_sym, Permutation_nil in Hp. discriminate.
    + simpl. f_equal.
      destruct (fold_left_max_spec xs x) as [Hin Hall].
      destruct (fold_left_max_spec ys y) as [Hin' Hall'].
      cbv zeta in *. rewrite Forall_forall in Hall, Hall'.
      apply (Permutation_in _ Hp) in Hin.
      apply (Permutation_in _ (Permutation_sym Hp)) in Hin'.
      specialize (Hall _ Hin'). specialize (Hall' _ Hin). lia.
Qed.

Lemma count_eq_Permutation (data data' : list halves) (x : halves) :
  Permutation data data' -> count_eq data x = count_eq data' x.
Proof.
  intros Hp. rewrite !count_eq_count_occ.
  now apply (Permutation_count_occ Z.eq_dec).
Qed.

(** X7: the frequency table does not depend on the order of the streak
    lengths: the aggregator returns the same result, table or error, on any
    rearrangement of its input, so reading the ordered or the unordered
    streak file makes no difference. *)
Theorem frequencies_ignore_order (data data' : list halves) :
  Permutation data data' ->
  create_combined_frequencies_dataframe data
  = create_combined_frequencies_dataframe data'.
Proof.
  intros Hp. unfold create_combined_frequencies_dataframe.
  rewrite (series_max_Permutation data data' Hp).
  destruct (np_arange _ _ _) as [xi_values|e]; simpl; [|reflexivity].
  f_equal. apply map_ext. intros xi.
  now rewrite (count_eq_Permutation data data' xi Hp).
Qed.

Lemma frequencies_ignore_order_witness :
  create_combined_frequencies_dataframe [5; 4; 7; 4]
  = create_combined_frequencies_dataframe [4; 4; 5; 7].
Proof.
  apply frequencies_ignore_order.
  apply perm_trans with (4 :: 5 :: 7 :: [4]).
  - apply perm_swap.
  - apply perm_skip.
    apply perm_trans with (5 :: 4 :: [7]).
    + apply perm_skip. apply perm_swap.
    + apply perm_trans with (4 :: 5 :: [7]); [apply perm_swap|].
      apply Permutation_refl.
Defined.

(** ** Decoding the frequency table *)

Lemma insert_ascending_Permutation x l :
  Permutation (insert_ascending x l) (x :: l).
Proof.
  induction l as [|y l IH]; simpl; [apply Permutation_refl|].
  destruct (x <=? y); [apply Permutation_refl|].
  apply perm_trans with (y :: x :: l); [now apply perm_skip | apply perm_swap].
Qed.

Lemma sort_values_ascending_Permutation l :
  Permutation (sort_values_ascending l) l.
Proof.
  induction l as [|x l IH]; simpl; [apply Permutation_refl|].
  apply perm_trans with (x :: sort_values_ascending l).
  - apply insert_ascending_Permutation.
  - now apply perm_skip.
Qed.

Lemma insert_ascending_sorted x l :
  StronglySorted Z.le l -> StronglySorted Z.le (insert_ascending x l).
Proof.
  induction 1 as [|y l Hs IH Hy]; simpl.
  - repeat constructor.
  - destruct (x <=? y) eqn:E.
    + apply Z.leb_le in E. constructor; [now constructor|].
      constructor; [assumption|].
      eapply Forall_impl; [|exact Hy]. intros z Hz. lia.
    + apply Z.leb_gt in E. constructor; [assumption|].
      apply (Permutation_Forall
               (Permutation_sym (insert_ascending_Permutation x l))).
      constructor; [lia | assumption].
Qed.

Lemma sort_values_ascending_sorted l :
  StronglySorted Z.le (sort_values_ascending l).
Proof.
  induction l as [|x l IH]; simpl; [constructor|].
  now apply insert_ascending_sorted.
Qed.

(** Two ascending arrangements of the same values are the same list. *)
Lemma ascending_unique (l1 l2 : list Z) :
  StronglySorted Z.le l1 -> StronglySorted Z.le l2 -> Permutation l1 l2 ->
  l1 = l2.
Proof.
  intros H1. revert l2. induction H1 as [|a l1 Hs1 IH Ha]; intros l2 H2 Hp.
  - apply Permutation_nil in Hp. now subst.
  - destruct l2 as [|b l2].
    + apply Permutation_sym, Permutation_nil in Hp. discriminate.
    + inversion H2 as [|? ? Hs2 Hb]; subst.
      assert (a = b).
      { rewrite Forall_forall in Ha, Hb.
        assert (Hina : In a (b :: l2))
          by (apply (Permutation_in _ Hp); now left).
        assert (Hinb : In b (a :: l1))
          by (apply (Permutation_in _ (Permutation_sym Hp)); now left).
        destruct Hina as [->|Hina]; [reflexivity|].
        destruct Hinb as [->|Hinb]; [reflexivity|].
        specialize (Ha _ Hinb). specialize (Hb _ Hina). lia. }
      subst b. f_equal. apply IH; [assumption|].
      now apply Permutation_cons_inv in Hp.
Qed.

Lemma np_repeat_map (data : list halves) (grid : list halves) :
  np_repeat (map (fun xi => (xi, count_eq data xi)) grid)
  = flat_map (fun xi => repeat xi (count_eq data xi)) grid.
Proof.
  unfold np_repeat. induction grid as [|x grid IH]; simpl; [reflexivity|].
  now rewrite IH.
Qed.

Lemma flat_map_repeat_sorted (c : Z -> nat) (grid : list Z) :
  StronglySorted Z.lt grid ->
  StronglySorted Z.le (flat_map (fun x => repeat x (c x)) grid) /\
  forall z, In z (flat_map (fun x => repeat x (c x)) grid) -> In z grid.
Proof.
  induction 1 as [|x grid Hs [IHs IHin] Hx]; simpl.
  - split; [constructor | auto].
  - split.
    + rewrite Forall_forall in Hx.
      induction (c x) as [|n IHn]; simpl; [assumption|].
      constructor; [assumption|].
      apply Forall_app. split.
      * apply Forall_forall. intros z Hz. apply repeat_spec in Hz. lia.
      * apply Forall_forall. intros z Hz.
        specialize (Hx z (IHin z Hz)). lia.
    + intros z Hz. apply in_app_or in Hz. destruct Hz as [Hz|Hz].
      * apply repeat_spec in Hz. now left.
      * right. auto.
Qed.

Lemma count_occ_flat_map_repeat (c : Z -> nat) (grid : list Z) (z : Z) :
  NoDup grid ->
  count_occ Z.eq_dec (flat_map (fun x => repeat x (c x)) grid) z
  = if in_dec Z.eq_dec z grid then c z else 0%nat.
Proof.
  induction 1 as [|x grid Hnin Hnd IH]; simpl; [reflexivity|].
  rewrite count_occ_app, IH.
  destruct (Z.eq_dec x z) as [->|Hne].
  - rewrite count_occ_repeat_eq by reflexivity.
    destruct (in_dec Z.eq_dec z grid); [contradiction | lia].
  - rewrite count_occ_repeat_neq by congruence.
    destruct (in_dec Z.eq_dec z grid); reflexivity.
Qed.

Lemma count_occ_filter_ge (data : list Z) (lo z : Z) :
  count_occ Z.eq_dec (filter (fun x => lo <=? x) data) z
  = if lo <=? z then count_occ Z.eq_dec data z else 0%nat.
Proof.
  induction data as [|a data IH]; simpl.
  - now destruct (lo <=? z).
  - destruct (lo <=? a) eqn:Ea; simpl; rewrite IH;
      destruct (Z.eq_dec a z) as [->|Hne]; try reflexivity.
    + now rewrite Ea.
    + now rewrite Ea.
Qed.

Lemma decode_grid (data : list halves) (m : halves) :
  Forall (fun x => x <= m) data ->
  np_repeat (map (fun xi => (xi, count_eq data xi))
                 (range (2 * one) (m + half)))
  = sort_values_ascending (filter (fun x => 2 * one <=? x) data).
Proof.
  intros Hall. set (grid := range (2 * one) (m + half)).
  rewrite np_repeat_map.
  pose proof (range_increasing (2 * one) (m + half)) as Hinc.
  fold grid in Hinc.
  destruct (flat_map_repeat_sorted (count_eq data) grid Hinc) as [Hs _].
  apply ascending_unique;
    [exact Hs | apply sort_values_ascending_sorted |].
  apply perm_trans with (filter (fun x => 2 * one <=? x) data);
    [|apply Permutation_sym, sort_values_ascending_Permutation].
  apply (Permutation_count_occ Z.eq_dec). intros z.
  rewrite count_occ_flat_map_repeat by now apply increasing_NoDup.
  rewrite count_occ_filter_ge, count_eq_count_occ.
  destruct (in_dec Z.eq_dec z grid) as [Hz|Hz].
  - apply in_range in Hz.
    replace (2 * one <=? z) with true by (symmetry; apply Z.leb_le; lia).
    reflexivity.
  - destruct (2 * one <=? z) eqn:E; [|reflexivity].
    apply Z.leb_le in E. symmetry. apply count_occ_not_In.
    intros Hzin. apply Hz. apply in_range.
    rewrite Forall_forall in Hall. specialize (Hall z Hzin).
    unfold half. lia.
Qed.

Lemma filter_all_ge (data : list halves) :
  Forall (fun x => 2 * one <= x) data ->
  filter (fun x => 2 * one <=? x) data = data.
Proof.
  induction 1 as [|x l Hx _ IH]; cbn [filter]; [reflexivity|].
  replace (2 * one <=? x) with true by (symmetry; now apply Z.leb_le).
  now rewrite IH.
Qed.

(** X8: the frequency table can be decoded: repeating every [Xi] of the
    table [Fi] times, as the analysis script does, gives the lengths that
    are at least 2, each as often as in the input, in ascending order; when
    every length is at least 2, as for lengths the scanner emits, this is
    exactly the ordered streak file. *)
Theorem table_decodes_to_sorted_lengths (data : list halves) :
  data <> [] ->
  exists table,
    create_combined_frequencies_dataframe data = Ok table /\
    np_repeat table
    = sort_values_ascending (filter (fun x => 2 * one <=? x) data) /\
    (Forall (fun x => 2 * one <= x) data ->
     np_repeat table = sort_values_ascending data).
Proof.
  intros Hne.
  destruct (series_max_nonempty data Hne) as (m & Hmax & Hin & Hall).
  exists (map (fun xi => (xi, count_eq data xi))
              (range (2 * one) (m + half))).
  split; [|split].
  - unfold create_combined_frequencies_dataframe.
    rewrite Hmax, np_arange_grid. reflexivity.
  - now apply decode_grid.
  - intros Hge. rewrite (decode_grid data m Hall).
    now rewrite filter_all_ge.
Qed.

Lemma table_decodes_to_sorted_lengths_witness :
  exists table,
    create_combined_frequencies_dataframe [7; 4; 6; 6] = Ok table /\
    np_repeat table = [4; 6; 6; 7].
Proof.
  assert (Hne : [7; 4; 6; 6] <> []) by discriminate.
  destruct (table_decodes_to_sorted_lengths [7; 4; 6; 6] Hne)
    as (table & Ht & _ & Hd).
  exists table. split; [exact Ht|].
  rewrite Hd; [reflexivity|].
  repeat constructor; unfold one; lia.
Defined.

(** ** Summary values read from the table *)

Lemma argmax_from_correct :
  forall l pre best best_i,
    nth_error pre best_i = Some best ->
    Forall (fun y => y <= best) pre ->
    (forall j w, (j < best_i)%nat -> nth_error pre j = Some w -> w < best) ->
    let k := argmax_from l best best_i (List.length pre) in
    exists v,
      nth_error (pre ++ l) k = Some v /\
      Forall (fun y => y <= v) (pre ++ l) /\
      (forall j w, (j < k)%nat -> nth_error (pre ++ l) j = Some w -> w < v).
Proof.
  induction l as [|y l IH]; intros pre best best_i Hnth Hall Hfirst; simpl.
  - rewrite app_nil_r. eauto.
  - assert (Hlt : (best_i < List.length pre)%nat).
    { apply nth_error_Some. rewrite Hnth. discriminate. }
    replace (pre ++ y :: l) with ((pre ++ [y]) ++ l)
      by (now rewrite <- app_assoc).
    replace (S (List.length pre)) with (List.length (pre ++ [y]))
      by (rewrite length_app; simpl; lia).
    destruct (best <? y) eqn:E.
    + apply Z.ltb_lt in E. apply IH.
      * rewrite nth_error_app2, Nat.sub_diag by lia. reflexivity.
      * apply Forall_app. split; [|repeat constructor; lia].
        eapply Forall_impl; [|exact Hall]. intros z Hz. simpl in Hz. lia.
      * intros j w Hj Hw. rewrite nth_error_app1 in Hw by assumption.
        apply nth_error_In in Hw. rewrite Forall_forall in Hall.
        specialize (Hall w Hw). simpl in Hall. lia.
    + apply Z.ltb_ge in E. apply IH.
      * now rewrite nth_error_app1.
      * apply Forall_app. split; [assumption | repeat constructor; lia].
      * intros j w Hj Hw. rewrite nth_error_app1 in Hw by lia. eauto.
Qed.

Lemma idxmax_correct (l : list Z) :
  l <> [] ->
  exists k v,
    idxmax l = Some k /\ nth_error l k = Some v /\
    Forall (fun y => y <= v) l /\
    (forall j w, (j < k)%nat -> nth_error l j = Some w -> w < v).
Proof.
  destruct l as [|x l]; [intros H; now contradiction H | intros _].
  destruct (argmax_from_correct l [x] x 0%nat) as (v & Hv & Hall & Hfirst).
  - reflexivity.
  - repeat constructor. lia.
  - intros j w Hj. lia.
  - exists (argmax_from l x 0 1), v. auto.
Qed.

Lemma nth_error_range (lo hi : Z) (j : nat) (x : Z) :
  nth_error (range lo hi) j = Some x -> x = lo + Z.of_nat j.
Proof.
  intros H. assert (Hj : (j < List.length (range lo hi))%nat).
  { apply nth_error_Some. rewrite H. discriminate. }
  rewrite (nth_error_nth' _ 0 Hj) in H.
  assert (E : x = nth j (range lo hi) 0) by congruence.
  rewrite E. now apply nth_range.
Qed.

(** X9: once some length is at least 2, the values the analysis script reads
    off the table are those of the lengths themselves: the highest streak is
    the largest length and its frequency is the number of streaks of that
    length, at least one; the mode is a length that occurs in the input, at
    least as often as any other length from 2 up, and the smallest such. *)
Theorem summary_values_of_table (data : list halves) (m : halves) :
  series_max data = Fin m -> 2 * one <= m ->
  exists table x,
    create_combined_frequencies_dataframe data = Ok table /\
    highest_streak table = Fin m /\
    freq_of_highest_streak table = Some (count_occ Z.eq_dec data m) /\
    (1 <= count_occ Z.eq_dec data m)%nat /\
    mode table = Some x /\ In x data /\ 2 * one <= x /\
    (forall y, 2 * one <= y ->
               (count_occ Z.eq_dec data y <= count_occ Z.eq_dec data x)%nat) /\
    (forall y, 2 * one <= y < x ->
               (count_occ Z.eq_dec data y < count_occ Z.eq_dec data x)%nat).
Proof.
  intros Hmax Hm.
  assert (Hne : data <> []) by (intros ->; discriminate Hmax).
  destruct (series_max_nonempty data Hne) as (m' & Hmax' & Hin & Hall).
  rewrite Hmax in Hmax'. injection Hmax' as <-.
  set (grid := range (2 * one) (m + half)).
  set (table := map (fun xi => (xi, count_eq data xi)) grid).
  assert (Hfst : map fst table = grid).
  { unfold table. rewrite map_map. apply map_id. }
  assert (Hsnd : map snd table = map (count_eq data) grid).
  { unfold table. now rewrite map_map. }
  assert (Hcnt : map (fun xf => Z.of_nat (snd xf)) table
                 = map (fun xi => Z.of_nat (count_eq data xi)) grid).
  { unfold table. now rewrite map_map. }
  assert (Hmgrid : In m grid) by (apply in_range; unfold half; lia).
  assert (Hgne : grid <> []) by (intros E; now rewrite E in Hmgrid).
  assert (Hpos : (1 <= count_occ Z.eq_dec data m)%nat)
    by (now apply count_occ_In).
  (* the highest streak *)
  destruct (idxmax_correct grid Hgne) as (k & v & Hk & Hkv & Hkall & _).
  assert (v = m).
  { rewrite Forall_forall in Hkall. specialize (Hkall m Hmgrid).
    apply nth_error_In, in_range in Hkv. unfold half in Hkv. lia. }
  subst v.
  (* the mode *)
  destruct (idxmax_correct (map (fun xi => Z.of_nat (count_eq data xi)) grid))
    as (i & c & Hi & Hic & Hiall & Hifirst).
  { intros E. apply map_eq_nil in E. contradiction. }
  rewrite nth_error_map in Hic.
  match type of Hic with
  | option_map _ ?t = _ => destruct t as [x|] eqn:Hix
  end; simpl in Hic; [|discriminate Hic].
  injection Hic as <-.
  assert (Hxgrid : In x grid) by (eapply nth_error_In; eauto).
  assert (Hbig : forall y, In y grid ->
            (count_occ Z.eq_dec data y <= count_occ Z.eq_dec data x)%nat).
  { intros y Hy. rewrite Forall_forall in Hiall.
    specialize (Hiall (Z.of_nat (count_eq data y))).
    rewrite <- !count_eq_count_occ. apply Nat2Z.inj_le, Hiall.
    apply in_map_iff. eauto. }
  exists table, x. repeat split.
  - unfold create_combined_frequencies_dataframe.
    rewrite Hmax, np_arange_grid. reflexivity.
  - unfold highest_streak. rewrite Hfst.
    assert (Hg : grid <> []) by assumption.
    destruct (series_max_nonempty grid Hg) as (g & Hgmax & Hgin & Hgall).
    rewrite Hgmax. f_equal.
    rewrite Forall_forall in Hgall. specialize (Hgall m Hmgrid).
    apply in_range in Hgin. unfold half in Hgin. lia.
  - unfold freq_of_highest_streak. rewrite Hfst, Hk, Hsnd, nth_error_map.
    unfold halves in *. rewrite Hkv.
    simpl. now rewrite count_eq_count_occ.
  - exact Hpos.
  - unfold mode. rewrite Hcnt, Hi, Hfst. exact Hix.
  - apply (count_occ_In Z.eq_dec). specialize (Hbig m Hmgrid). lia.
  - apply in_range in Hxgrid. lia.
  - intros y Hy. destruct (in_dec Z.eq_dec y grid) as [Hyg|Hyg]; [auto|].
    assert (E : count_occ Z.eq_dec data y = 0%nat); [|lia].
    apply count_occ_not_In.
    intros Hyin. apply Hyg. apply in_range.
    rewrite Forall_forall in Hall. specialize (Hall y Hyin). unfold half. lia.
  - intros y [Hy Hyx].
    apply nth_error_range in Hix as Hx.
    assert (Hj : (Z.to_nat (y - 2 * one) < i)%nat) by lia.
    assert (Hyg : nth_error grid (Z.to_nat (y - 2 * one)) = Some y).
    { assert (Hlen : (Z.to_nat (y - 2 * one) < List.length grid)%nat).
      { unfold grid. rewrite length_range. apply in_range in Hxgrid.
        unfold half in *. lia. }
      rewrite (nth_error_nth' _ 0 Hlen). f_equal.
      unfold grid. rewrite nth_range by exact Hlen. lia. }
    specialize (Hifirst _ (Z.of_nat (count_eq data y)) Hj).
    rewrite nth_error_map in Hifirst. unfold halves in *.
    rewrite Hyg in Hifirst. specialize (Hifirst eq_refl).
    rewrite <- !count_eq_count_occ. lia.
Qed.

Lemma summary_values_of_table_witness :
  exists table,
    create_combined_frequencies_dataframe [4; 6; 6; 7; 5; 5] = Ok table /\
    highest_streak table = Fin 7 /\
    freq_of_highest_streak table = Some 1%nat /\
    mode table = Some 5.
Proof.
  destruct (summary_values_of_table [4; 6; 6; 7; 5; 5] 7)
    as (table & x & Ht & Hh & Hf & _ & Hmode & _).
  - reflexivity.
  - unfold one. lia.
  - exists table. repeat split; try assumption.
    vm_compute in Ht. injection Ht as <-. reflexivity.
Defined.

(** ** The per-player pipeline *)

Lemma filter_Permutation {A} (f : A -> bool) (l l' : list A) :
  Permutation l l' -> Permutation (filter f l) (filter f l').
Proof.
  induction 1 as [|x l l' _ IH|x y l|l l' l'' _ IH1 _ IH2]; simpl.
  - constructor.
  - destruct (f x); [now constructor | assumption].
  - destruct (f x), (f y); try apply Permutation_refl. apply perm_swap.
  - eapply perm_trans; eauto.
Qed.

Lemma sort_values_ascending_idempotent (l : list halves) :
  sort_values_ascending (sort_values_ascending l) = sort_values_ascending l.
Proof.
  apply ascending_unique.
  - apply sort_values_ascending_sorted.
  - apply sort_values_ascending_sorted.
  - apply sort_values_ascending_Permutation.
Qed.

(** X10: a player whose table holds fewer than two wins stops
    [process_files]: the scanner finds no streak, the three streak and
    detail files of that player are written empty, the aggregator raises
    the [ValueError] of [np.arange] on the empty ordered file, no frequency
    file is written, and no later player is processed. *)
Theorem process_files_stops_without_streak
  (sort_values_by_ID : dataframe -> dataframe)
  (winner_names : string -> option string)
  (player_key name : string) (csv : dataframe)
  (rest : list (string * dataframe)) :
  (forall df, Permutation (sort_values_by_ID df) df) ->
  winner_names player_key = Some name ->
  (List.length (wins name csv) < 2)%nat ->
  process_files sort_values_by_ID winner_names ((player_key, csv) :: rest)
  = ([(player_key, mkFiles [] [] [] None)],
     Some (Raised ValueError_arange_length)).
Proof.
  intros Hperm Hname Hwins. simpl. rewrite Hname.
  set (df := sort_values_by_ID csv).
  destruct (scan_wins_bound df name df initial_state 0%nat 0%nat)
    as (st & Hscan & Hb); simpl; try lia.
  - apply incl_refl.
  - exact wf_initial.
  - intros H. now contradiction H.
  - destruct (calculate_emissions df name) as (es & _ & Hcalc).
    pose proof Hcalc as Hcalc'.
    unfold calculate_streaks_and_details in Hcalc'. rewrite Hscan in Hcalc'.
    simpl in Hcalc'. injection Hcalc' as Hst _.
    assert (Hlen : List.length (wins name df) = List.length (wins name csv)).
    { apply Permutation_length, filter_Permutation, Hperm. }
    assert (es = []).
    { destruct es as [|e es]; [reflexivity|].
      rewrite Hst in Hb. simpl in Hb. lia. }
    subst es. rewrite Hcalc. reflexivity.
Qed.

(** X11: for a player whose table gives at least one streak the pipeline
    writes all four files and goes on to the next player; the ordered file
    is the unordered one in ascending order, the frequency table is built
    without error, and decoding it with [np.repeat] gives back exactly the
    ordered file. *)
Theorem process_files_writes_consistent_files
  (sort_values_by_ID : dataframe -> dataframe)
  (winner_names : string -> option string)
  (player_key name : string) (csv : dataframe)
  (rest : list (string * dataframe))
  (streaks : list halves) (details : list detail) :
  winner_names player_key = Some name ->
  calculate_streaks_and_details (sort_values_by_ID csv) name
  = Ok (streaks, details) ->
  streaks <> [] ->
  exists table,
    process_files sort_values_by_ID winner_names ((player_key, csv) :: rest)
    = (let (written, stopped) :=
         process_files sort_values_by_ID winner_names rest in
       ((player_key,
         mkFiles streaks details (sort_values_ascending streaks)
                 (Some table)) :: written, stopped)) /\
    Permutation (sort_values_ascending streaks) streaks /\
    StronglySorted Z.le (sort_values_ascending streaks) /\
    np_repeat table = sort_values_ascending streaks.
Proof.
  intros Hname Hcalc Hne.
  set (df := sort_values_by_ID csv) in *.
  set (ordered := sort_values_ascending streaks).
  assert (Hge : Forall (fun x => 2 * one <= x) streaks).
  { destruct (emissions_invariant df name run_inv well_formed_streak
                (transition_run_inv df name) run_inv_emit
                df initial_state (incl_refl _) wf_initial run_inv_initial)
      as (es & Hem & Hall).
    destruct (calculate_emissions df name) as (es' & Hem' & Hcalc').
    rewrite Hem in Hem'. injection Hem' as <-.
    rewrite Hcalc in Hcalc'. injection Hcalc' as -> _.
    apply Forall_map. eapply Forall_impl; [|exact Hall].
    intros e He. apply He. }
  assert (Hge' : Forall (fun x => 2 * one <= x) ordered).
  { apply (Permutation_Forall
             (Permutation_sym (sort_values_ascending_Permutation streaks))).
    exact Hge. }
  assert (Hone : ordered <> []).
  { intros E. apply Hne. apply Permutation_nil.
    rewrite <- E. apply sort_values_ascending_Permutation. }
  destruct (series_max_nonempty ordered Hone) as (m & Hmax & Hin & Hall).
  exists (map (fun xi => (xi, count_eq ordered xi))
              (range (2 * one) (m + half))).
  assert (Htable : create_combined_frequencies_dataframe ordered
                   = Ok (map (fun xi => (xi, count_eq ordered xi))
                             (range (2 * one) (m + half)))).
  { unfold create_combined_frequencies_dataframe.
    rewrite Hmax, np_arange_grid. reflexivity. }
  split; [|split; [|split]].
  - simpl. rewrite Hname. fold df. rewrite Hcalc. fold ordered.
    rewrite Htable. reflexivity.
  - apply sort_values_ascending_Permutation.
  - apply sort_values_ascending_sorted.
  - rewrite (decode_grid ordered m Hall), (filter_all_ge ordered Hge').
    apply sort_values_ascending_idempotent.
Qed.

Lemma insert_by_ID_Permutation r df :
  Permutation (insert_by_ID r df) (r :: df).
Proof.
  induction df as [|r' df IH]; simpl; [apply Permutation_refl|].
  destruct (ID r <=? ID r'); [apply Permutation_refl|].
  apply perm_trans with (r' :: r :: df); [now apply perm_skip | apply perm_swap].
Qed.

Lemma insertion_sort_by_ID_Permutation df :
  Permutation (insertion_sort_by_ID df) df.
Proof.
  induction df as [|r df IH]; simpl; [apply Permutation_refl|].
  apply perm_trans with (r :: insertion_sort_by_ID df).
  - apply insert_by_ID_Permutation.
  - now apply perm_skip.
Qed.

Lemma process_files_stops_without_streak_witness :
  process_files insertion_sort_by_ID winner_names_app
    [("HikaruNakamura"%string, [loss_row 2; win_row "Hikaru" 1]);
     ("MagnusCarlsen"%string, two_streaks)]
  = ([("HikaruNakamura"%string, mkFiles [] [] [] None)],
     Some (Raised ValueError_arange_length)).
Proof.
  apply process_files_stops_without_streak with (name := "Hikaru"%string).
  - exact insertion_sort_by_ID_Permutation.
  - reflexivity.
  - simpl. lia.
Defined.

Lemma process_files_writes_consistent_files_witness :
  exists table ds,
    process_files insertion_sort_by_ID winner_names_app
      [("HikaruNakamura"%string, rev two_streaks)]
    = ([("HikaruNakamura"%string, mkFiles [4; 5] ds [4; 5] (Some table))],
       None) /\
    np_repeat table = [4; 5].
Proof.
  destruct (process_files_writes_consistent_files
              insertion_sort_by_ID winner_names_app
              "HikaruNakamura" "Hikaru" (rev two_streaks) []
              [4; 5]
              (map detail_of_row (firstn 2 two_streaks)
               ++ map detail_of_row (skipn 3 two_streaks)))
    as (table & Hrun & _ & _ & Hdec).
  - reflexivity.
  - reflexivity.
  - discriminate.
  - exists table. eexists. split; [exact Hrun | exact Hdec].
Defined.

(** ** Ids and outcomes decide the streaks *)

Lemma mapM_lookup_ids (df : dataframe) :
  forall l ds, mapM (lookup_detail df) l = Ok ds -> ids ds = l.
Proof.
  induction l as [|x l IH]; intros ds; simpl.
  - intros H. injection H as <-. reflexivity.
  - unfold lookup_detail at 1.
    destruct (find (fun r => ID r =? x) df); simpl; [|discriminate].
    destruct (mapM (lookup_detail df) l) as [ds'|]; simpl; [|discriminate].
    intros H. injection H as <-. simpl. now rewrite (IH ds').
Qed.

Lemma same_outcome_tests p p' r r' :
  outcome_of p r = outcome_of p' r' ->
  winner_is (Winner r) p = winner_is (Winner r') p' /\
  (winner_is (Winner r) p = false ->
   winner_is (Winner r) "Draw" = winner_is (Winner r') "Draw").
Proof.
  unfold outcome_of.
  destruct (winner_is (Winner r) p), (winner_is (Winner r') p'),
    (winner_is (Winner r) "Draw"), (winner_is (Winner r') "Draw");
    intros H; try discriminate H; auto.
Qed.

Lemma same_run_emit (st st' : state) :
  same_run st st' -> same_run (emit st) (emit st').
Proof.
  intros (Hs & Hd & Hc & Hst & Hsd & Hl & Hp). unfold emit. rewrite <- Hc.
  destruct (2 <? current_streak st); unfold same_run; state_fields.
  - unfold ids in *. rewrite !map_app, Hs, Hd, Hsd. auto 10.
  - auto 10.
Qed.

Lemma step_same_run df df' p p' st st' r r' st1 st1' :
  same_run st st' -> ID r = ID r' -> outcome_of p r = outcome_of p' r' ->
  step df p st r = Ok st1 -> step df' p' st' r' = Ok st1' ->
  same_run st1 st1'.
Proof.
  intros Hsame Hid Hout.
  pose proof (same_run_emit st st' Hsame) as He.
  destruct Hsame as (Hs & Hd & Hc & Hst & Hsd & Hl & Hp).
  destruct He as (Hes & Hed & _).
  destruct (same_outcome_tests p p' r r' Hout) as [Hw Hdraw].
  unfold step, continues, is_sequential.
  rewrite <- Hw, <- Hst, <- Hl, <- Hid.
  destruct (winner_is (Winner r) p).
  - destruct (negb (is_None (streak_start_id st)
                    || negb match last_id st with
                            | Some l => ID r =? l + 1
                            | None => true
                            end)).
    + destruct (last_id st) as [l|]; [|discriminate].
      destruct (mapM (lookup_detail df) _) as [ds|] eqn:E; [|discriminate].
      destruct (mapM (lookup_detail df') _) as [ds'|] eqn:E'; [|discriminate].
      apply mapM_lookup_ids in E, E'.
      cbn [bind]. intros H H'. injection H as <-. injection H' as <-.
      unfold same_run. state_fields. unfold ids in *.
      rewrite !map_app, Hs, Hd, Hc, Hp, Hsd, E, E'. auto 10.
    + cbn [bind]. intros H H'. injection H as <-. injection H' as <-.
      unfold same_run. state_fields. simpl. rewrite Hes, Hed, Hid. auto 10.
  - rewrite <- (Hdraw eq_refl).
    destruct (winner_is (Winner r) "Draw"
              && match last_id st with
                 | Some l => ID r =? l + 1
                 | None => true
                 end).
    + destruct (streak_start_id st); cbn [bind]; intros H H';
        injection H as <-; injection H' as <-;
        unfold same_run; state_fields; unfold ids in *;
        rewrite ?map_app, Hs, Hd, Hc, ?Hsd; simpl; rewrite ?Hid; auto 10.
    + cbn [bind]. intros H H'. injection H as <-. injection H' as <-.
      unfold same_run. state_fields. rewrite Hes, Hed. auto 10.
Qed.

Lemma scan_same_run df df' p p' :
  forall rows rows' st st' st1 st1',
    records p rows = records p' rows' -> same_run st st' ->
    scan df p st rows = Ok st1 -> scan df' p' st' rows' = Ok st1' ->
    same_run st1 st1'.
Proof.
  induction rows as [|r rows IH]; intros rows' st st' st1 st1' Hrec Hsame.
  - symmetry in Hrec. apply records_nil in Hrec. subst rows'. simpl.
    intros H H'. injection H as <-. injection H' as <-. exact Hsame.
  - destruct rows' as [|r' rows']; [discriminate Hrec|].
    simpl in Hrec. injection Hrec as Hid Hout Hrec. simpl.
    destruct (step df p st r) as [s|] eqn:Hs; [|discriminate].
    destruct (step df' p' st' r') as [s'|] eqn:Hs'; [|discriminate].
    cbn [bind]. apply IH; [assumption|].
    eapply step_same_run; eauto.
Qed.

(** X12: the streaks depend on the ids and outcomes alone: two tables with
    the same list of (id, outcome) pairs, whatever the ratings, the names in
    the [Winner] column and the tracked name, give the same streak lengths
    and detail entries with the same ids. *)
Theorem streaks_depend_on_ids_and_outcomes
  (df df' : dataframe) (p p' : string) :
  records p df = records p' df' ->
  exists streaks details details',
    calculate_streaks_and_details df p = Ok (streaks, details) /\
    calculate_streaks_and_details df' p' = Ok (streaks, details') /\
    ids details = ids details'.
Proof.
  intros Hrec.
  destruct (scan_invariant df p (fun _ => True) (fun _ _ _ _ _ _ => I)
              df initial_state (incl_refl _) wf_initial I)
    as (st & Hscan & _).
  destruct (scan_invariant df' p' (fun _ => True) (fun _ _ _ _ _ _ => I)
              df' initial_state (incl_refl _) wf_initial I)
    as (st' & Hscan' & _).
  assert (Hsame : same_run (emit st) (emit st')).
  { apply same_run_emit.
    apply (scan_same_run df df' p p' df df' initial_state initial_state);
      auto.
    repeat split. }
  destruct Hsame as (Hs & Hd & _).
  unfold calculate_streaks_and_details. rewrite Hscan, Hscan'. cbn [bind].
  rewrite <- Hs. do 3 eexists.
  split; [reflexivity|]. split; [reflexivity | exact Hd].
Qed.

Lemma streaks_depend_on_ids_and_outcomes_witness :
  exists streaks details details',
    calculate_streaks_and_details scenario_B "Hikaru" = Ok (streaks, details) /\
    calculate_streaks_and_details
      [mkRow 1 (Some "MagnusCarlsen"%string) 2500 300;
       mkRow 2 (Some "Draw"%string) 2810 10;
       mkRow 3 (Some "MagnusCarlsen"%string) 2790 40] "MagnusCarlsen"
    = Ok (streaks, details') /\
    ids details = ids details'.
Proof.
  apply streaks_depend_on_ids_and_outcomes. reflexivity.
Defined.
